(** * dit.math.sigmaalgebra: generated sigma algebras and their verifiers

    A shallow embedding of [src/dit/math/sigmaalgebra.py].  Python sets and
    frozensets are finite sets ([gset]), the [defaultdict] and the [dict] of
    the source are finite maps ([gmap]), a call either returns a value or
    raises an exception ([result]), and the order in which a set is iterated
    is a parameter ([IterOrder]): the source only relies on that order being
    fixed for a given set. *)

From stdpp Require Import gmap list sorting.

(** ** Outcome of a call: a value, or a raised exception *)

Inductive exception : Type :=
  | KeyError      (* a [dict] subscripted with an absent key *)
  | IndexError    (* a sequence subscripted out of range *)
  | ValueError.   (* [min] of an empty collection *)

Inductive result (T : Type) : Type :=
  | Ok (v : T)
  | Raise (e : exception).
Arguments Ok {T} v.
Arguments Raise {T} e.

#[export] Instance result_bind : MBind result := λ T U k r,
  match r with
  | Ok v => k v
  | Raise e => Raise e
  end.

#[export] Instance exception_eq_dec : EqDecision exception.
Proof. solve_decision. Defined.

#[export] Instance result_eq_dec `{EqDecision T} : EqDecision (result T).
Proof. solve_decision. Defined.

Definition returns {T : Type} (r : result T) : Prop := ∃ v, r = Ok v.
Definition raises {T : Type} (r : result T) : Prop := ∃ e, r = Raise e.

(** A loop with an accumulator whose body may raise. *)
Fixpoint for_each {T S : Type} (body : S → T → result S) (acc : S) (l : list T)
    : result S :=
  match l with
  | [] => Ok acc
  | x :: l' => acc' ← body acc x; for_each body acc' l'
  end.

(** ** Iteration order of a set

    [for x in X] visits every member of [X] once, in an order the source
    does not control (the hash order).  [iter X] is that order. *)

Class IterOrder (B : Type) `{Countable B} : Type := {
  iter : gset B → list B;
  iter_perm : ∀ X : gset B, iter X ≡ₚ elements X
}.

(** [enumerate(l)] *)
Definition enumerate {T : Type} (l : list T) : list (nat * T) := imap pair l.

(** A NumPy integer array built from a list of rows. *)
Abbreviation matrix := (list (list nat)).

(** [M.transpose()], iterated: the columns of [M].  [np.array([])] has shape
    [(0,)], so a matrix without rows has no columns either; otherwise the
    shape is [(len(M), len(M[0]))]. *)
Definition transpose (M : matrix) : list (list nat) :=
  match M with
  | [] => []
  | row :: _ => (λ j, (λ r, nth j r 0) <$> M) <$> seq 0 (length row)
  end.

(** Modelled from the spec: [cmpy.util.words_iter] is an external
    collaborator, absent from the sources; it produces every sequence of
    length [L] over the alphabet exactly once. *)
Fixpoint words_iter {T : Type} (alphabet : list T) (L : nat) : list (list T) :=
  match L with
  | 0 => [[]]
  | S L' => mjoin ((λ a, (a ::.) <$> words_iter alphabet L') <$> alphabet)
  end.

(** [min(indexes)] *)
Definition py_min (indexes : gset nat) : result nat :=
  match elements indexes with
  | [] => Raise ValueError
  | i :: l => Ok (foldr Nat.min i l)
  end.

(** [unique_columns] *)
Definition unique_columns (Cmatrix : matrix) : gmap (list nat) (gset nat) :=
  foldl (λ unique_cols '(idx, col),
           <[col := default ∅ (unique_cols !! col) ∪ {[idx]}]> unique_cols)
        ∅ (enumerate (transpose Cmatrix)).

(** The first loop of [sigma_algebra], over [unique_cols.itervalues()]:
    [lookups] sends every column index to the least index of an identical
    column, and [reps] collects these representatives. *)
Definition add_class (acc : gmap nat nat * list nat) (indexes : gset nat)
    : result (gmap nat nat * list nat) :=
  representative ← py_min indexes;
  Ok (set_fold (λ index lookups, <[index := representative]> lookups)
               acc.1 indexes,
      acc.2 ++ [representative]).

Definition build_lookups (values : list (gset nat))
    : result (gmap nat nat * list nat) :=
  '(lookups, reps) ← for_each add_class (∅, []) values;
  Ok (lookups, merge_sort (≤) reps).

(** [word[j]] *)
Definition getitem {T : Type} (word : list T) (j : nat) : result T :=
  match word !! j with
  | Some b => Ok b
  | None => Raise IndexError
  end.

(** [lookups[i]] *)
Definition getkey (lookups : gmap nat nat) (i : nat) : result nat :=
  match lookups !! i with
  | Some r => Ok r
  | None => Raise KeyError
  end.

(** [[x for i, x in enumerate(X) if word[lookups[i]] == 1]] *)
Fixpoint select {A : Type} (lookups : gmap nat nat) (word : list nat)
    (ixs : list (nat * A)) : result (list A) :=
  match ixs with
  | [] => Ok []
  | (i, x) :: ixs' =>
      r ← getkey lookups i;
      b ← getitem word r;
      subset ← select lookups word ixs';
      Ok (if decide (b = 1) then x :: subset else subset)
  end.

Section sigmaalgebra.
Context `{Countable A} `{!IterOrder A} `{!IterOrder (gset A)}.

(** [X = set([]); for cet in C: X.update(cet)] *)
Definition union_of (C : gset (gset A)) : gset A :=
  foldl (λ X cet, X ∪ cet) ∅ (iter C).

Definition universe (C : gset (gset A)) (X : option (gset A)) : gset A :=
  match X with
  | None => union_of C
  | Some X => X
  end.

(** [sets2matrix] *)
Definition sets2matrix (C : gset (gset A)) (X : option (gset A))
    : result (matrix * gset A) :=
  let X := universe C X in
  let Cmatrix :=
    (λ cet, (λ x, if decide (x ∈ cet) then 1 else 0) <$> iter X) <$> iter C in
  Ok (Cmatrix, X).

(** [sigma_algebra] *)
Definition sigma_algebra (C : gset (gset A)) (X : option (gset A))
    : result (gset (gset A)) :=
  '(Cmatrix, X) ← sets2matrix C X;
  let unique_cols := unique_columns Cmatrix in
  '(lookups, reps) ← build_lookups (map_to_list unique_cols).*2;
  for_each (λ sC word,
              subset ← select lookups word (enumerate (iter X));
              Ok ({[list_to_set subset]} ∪ sC))
           ∅ (words_iter [0; 1] (size unique_cols)).

(** [is_sigma_algebra] *)
Definition is_sigma_algebra (F : gset (gset A)) (X : option (gset A))
    : result bool :=
  '(Fmatrix, X) ← sets2matrix F X;
  let unique_cols := unique_columns Fmatrix in
  Ok (bool_decide (size F = 2 ^ size unique_cols)).

(** [is_sigma_algebra__brute]: the inner and the outer loop; [false] is an
    early [return False], [true] is a loop that ran to its end. *)
Fixpoint unions_in (F : gset (gset A)) (subset1 : gset A)
    (l : list (gset A)) : bool :=
  match l with
  | [] => true
  | subset2 :: l' =>
      if decide (subset1 ∪ subset2 ∉ F) then false
      else unions_in F subset1 l'
  end.

Fixpoint checks_pass (F : gset (gset A)) (X : gset A)
    (l : list (gset A)) : bool :=
  match l with
  | [] => true
  | subset1 :: l' =>
      if decide (X ∖ subset1 ∉ F) then false
      else if unions_in F subset1 (iter F) then checks_pass F X l'
      else false
  end.

Definition is_sigma_algebra__brute (F : gset (gset A)) (X : option (gset A))
    : result bool :=
  let X := universe F X in
  Ok (checks_pass F X (iter F)).

End sigmaalgebra.

(** ** Specification-level notions

    The elements of [X] are partitioned by a key: two elements are
    equivalent when they have the same key.  A subset of [X] is saturated
    when it is a union of equivalence classes. *)

Section partition.
Context `{Countable A} `{Countable K}.

Definition saturated (key : A → K) (X S : gset A) : Prop :=
  S ⊆ X ∧ ∀ x y, x ∈ S → y ∈ X → key x = key y → y ∈ S.

(** All subsets of the set of the members of [l]. *)
Fixpoint subsets (l : list K) : list (gset K) :=
  match l with
  | [] => [∅]
  | k :: l' => subsets l' ++ (({[k]} ∪.) <$> subsets l')
  end.

(** The family of the unions of equivalence classes. *)
Definition generated (key : A → K) (X : gset A) : gset (gset A) :=
  list_to_set ((λ T : gset K, filter (λ x, key x ∈ T) X)
                 <$> subsets (elements (set_map key X : gset K))).
End partition.

Section classes.
Context `{Countable A}.

(** The members of [C] an element belongs to. *)
Definition membership (C : gset (gset A)) (x : A) : gset (gset A) :=
  filter (λ S, x ∈ S) C.

(** The number of equivalence classes of the elements of [X] under
    "belongs to exactly the same members of [C]". *)
Definition num_classes (C : gset (gset A)) (X : gset A) : nat :=
  size (set_map (membership C) X : gset (gset (gset A))).

(** Closure under complement in [X] and under union of two members. *)
Definition closed (X : gset A) (F : gset (gset A)) : Prop :=
  (∀ S, S ∈ F → X ∖ S ∈ F) ∧ (∀ S1 S2, S1 ∈ F → S2 ∈ F → S1 ∪ S2 ∈ F).

(** The column of an element in the incidence matrix with rows [rows]. *)
Definition column (rows : list (gset A)) (x : A) : list nat :=
  (λ S, if decide (x ∈ S) then 1 else 0) <$> rows.
End classes.

(** The least index of a column identical to column [i]: the value that
    [lookups] holds for [i]. *)
Definition first_index (cols : list (list nat)) (i : nat) : nat :=
  match cols !! i with
  | Some c => from_option fst i (list_find (c =.) cols)
  | None => i
  end.

(** ** Concrete iteration orders

    CPython stores small non-negative integers at the slot given by their
    value, so a frozenset of such integers is iterated in increasing order. *)
Program Definition increasing_order : IterOrder nat :=
  {| iter X := merge_sort (≤) (elements X) |}.
Next Obligation. intros X; simpl. apply merge_sort_Permutation. Qed.

Program Definition elements_order `{Countable B} : IterOrder (gset B) :=
  {| iter X := elements X |}.
Next Obligation. by intros. Qed.

(** * Properties *)

(** ** Iteration visits every member once *)

Section iteration.
Context `{IterOrder B}.

Lemma elem_of_iter (X : gset B) (x : B) : x ∈ iter X ↔ x ∈ X.
Proof. by rewrite iter_perm, elem_of_elements. Qed.

Lemma NoDup_iter (X : gset B) : NoDup (iter X).
Proof. rewrite iter_perm. apply NoDup_elements. Qed.

Lemma length_iter (X : gset B) : length (iter X) = size X.
Proof. by rewrite iter_perm. Qed.

Lemma iter_empty : iter (∅ : gset B) = [].
Proof. apply Permutation_nil_r. by rewrite iter_perm, elements_empty. Qed.

Lemma iter_nil_inv (X : gset B) : iter X = [] → X = ∅.
Proof.
  intros Hnil. apply leibniz_equiv, elements_empty_inv.
  apply Permutation_nil_r. by rewrite <-iter_perm, Hnil.
Qed.
End iteration.

Section brute.
Context `{Countable A} `{!IterOrder A} `{!IterOrder (gset A)}.
Implicit Types (F C : gset (gset A)) (X S : gset A).

Lemma elem_of_foldl_union (l : list (gset A)) X x :
  x ∈ foldl (λ X cet, X ∪ cet) X l ↔ x ∈ X ∨ ∃ S, S ∈ l ∧ x ∈ S.
Proof.
  revert X. induction l as [|S l IH]; intros X; simpl.
  - split; [auto|]. intros [?|(S & HS & _)]; [done|]. by apply elem_of_nil in HS.
  - rewrite IH, elem_of_union. split.
    + intros [[?|?]|(S' & ? & ?)]; [by left| |].
      * right. exists S. split; [left|done].
      * right. exists S'. split; [by right|done].
    + intros [?|(S' & [->|?]%elem_of_cons & ?)]; eauto.
Qed.

Lemma elem_of_union_of C x : x ∈ union_of C ↔ ∃ S, S ∈ C ∧ x ∈ S.
Proof.
  unfold union_of. rewrite elem_of_foldl_union. split.
  - intros [?|(S & ?%elem_of_iter & ?)]; [set_solver|eauto].
  - intros (S & ?%elem_of_iter & ?); eauto.
Qed.

Lemma unions_in_true F S1 (l : list (gset A)) :
  unions_in F S1 l = true ↔ ∀ S2, S2 ∈ l → S1 ∪ S2 ∈ F.
Proof.
  induction l as [|S2 l IH]; simpl.
  - split; [|done]. intros _ S2 HS2. by apply elem_of_nil in HS2.
  - destruct (decide (S1 ∪ S2 ∉ F)) as [Hn|Hin%dec_stable].
    + split; [done|]. intros Hall. destruct Hn. apply Hall. left.
    + rewrite IH. split.
      * intros Hall S2' [->|?]%elem_of_cons; auto.
      * intros Hall S2' ?. apply Hall. by right.
Qed.

Lemma checks_pass_true F X (l : list (gset A)) :
  checks_pass F X l = true ↔
    ∀ S1, S1 ∈ l → X ∖ S1 ∈ F ∧ ∀ S2, S2 ∈ F → S1 ∪ S2 ∈ F.
Proof.
  induction l as [|S1 l IH]; simpl.
  - split; [|done]. intros _ S1 HS1. by apply elem_of_nil in HS1.
  - destruct (decide (X ∖ S1 ∉ F)) as [Hn|Hin%dec_stable].
    { split; [done|]. intros Hall. destruct Hn.
      by destruct (Hall S1) as [? _]; [left|]. }
    destruct (unions_in F S1 (iter F)) eqn:Hu.
    + rewrite unions_in_true in Hu. rewrite IH. split.
      * intros Hall S [->|?]%elem_of_cons; [|by auto].
        split; [done|]. intros S2 ?. by apply Hu, elem_of_iter.
      * intros Hall S ?. apply Hall. by right.
    + split; [done|]. intros Hall.
      assert (unions_in F S1 (iter F) = true) as Ht; [|congruence].
      apply unions_in_true. intros S2 ?%elem_of_iter.
      destruct (Hall S1) as [_ Hu']; [left|]. by apply Hu'.
Qed.

(** The checks of the brute-force verifier stop at the first violation:
    what follows the offending member is not examined. *)
Lemma checks_pass_fail_fast F X (l1 l2 : list (gset A)) S1 :
  X ∖ S1 ∉ F ∨ (∃ S2, S2 ∈ F ∧ S1 ∪ S2 ∉ F) →
  checks_pass F X (l1 ++ S1 :: l2) = false.
Proof.
  intros Hbad. apply not_true_is_false. rewrite checks_pass_true.
  intros Hall. destruct (Hall S1) as [Hc Hu].
  { apply elem_of_app. right. left. }
  destruct Hbad as [?|(S2 & ? & Hn)]; [done|]. by apply Hn, Hu.
Qed.

(** C6: the brute-force verifier returns, and it returns [True] exactly
    when the complement (in [X], supplied or derived as the union of the
    members of [F]) of every member of [F] is in [F] and the union of every
    two members of [F] is in [F]; any failing check makes it [False]. *)
Theorem is_sigma_algebra__brute_spec F (X : option (gset A)) :
  ∃ (b : bool) (U : gset A),
    is_sigma_algebra__brute F X = Ok b
    ∧ (∀ x, x ∈ U ↔ match X with
                     | Some X => x ∈ X
                     | None => ∃ S, S ∈ F ∧ x ∈ S
                     end)
    ∧ (b = true ↔
         (∀ S1, S1 ∈ F → U ∖ S1 ∈ F)
         ∧ (∀ S1 S2, S1 ∈ F → S2 ∈ F → S1 ∪ S2 ∈ F)).
Proof.
  exists (checks_pass F (universe F X) (iter F)), (universe F X).
  split; [done|]. split.
  - intros x. destruct X as [X|]; simpl; [done|]. apply elem_of_union_of.
  - rewrite checks_pass_true. split.
    + intros Hall. split.
      * intros S1 HS1%elem_of_iter. by destruct (Hall S1 HS1) as [? _].
      * intros S1 S2 HS1%elem_of_iter ?.
        destruct (Hall S1 HS1) as [_ Hu]. by apply Hu.
    + intros [Hc Hu] S1 ?%elem_of_iter. split; [by apply Hc|]. intros S2 ?. by apply Hu.
Qed.

(** C10: on the empty family the brute-force verifier returns [True] for
    every universal set, although the empty family has no member at all
    (neither the universal set nor the empty set): its checks are vacuous. *)
Theorem is_sigma_algebra__brute_empty (X : option (gset A)) :
  is_sigma_algebra__brute (∅ : gset (gset A)) X = Ok true
  ∧ (universe (∅ : gset (gset A)) X ∉ (∅ : gset (gset A)))
  ∧ ((∅ : gset A) ∉ (∅ : gset (gset A))).
Proof.
  split; [|split; apply not_elem_of_empty].
  unfold is_sigma_algebra__brute. by rewrite iter_empty.
Qed.
End brute.

(** ** The encoder never rejects its input *)

Section encoder.
Context `{Countable A} `{!IterOrder A} `{!IterOrder (gset A)}.
Implicit Types (F C : gset (gset A)) (X S : gset A).

(** C4, as the code has it: [sets2matrix] makes no coverage check.  For
    every collection and every supplied universal set it returns the
    universal set unchanged and a matrix with one row per member of the
    collection and one column per element of the universal set, the entry
    being 1 exactly when the element is in the member; elements outside
    the universal set are ignored.  [is_sigma_algebra] then returns
    normally too. *)
Theorem sets2matrix_total C X :
  ∃ (M : matrix) (b : bool),
    sets2matrix C (Some X) = Ok (M, X)
    ∧ is_sigma_algebra C (Some X) = Ok b
    ∧ length M = size C
    ∧ (∀ i S, iter C !! i = Some S →
         ∃ row, M !! i = Some row ∧ length row = size X
           ∧ ∀ j x, iter X !! j = Some x →
               row !! j = Some (if decide (x ∈ S) then 1 else 0)).
Proof.
  exists ((λ S, (λ x, if decide (x ∈ S) then 1 else 0) <$> iter X) <$> iter C).
  eexists. split; [reflexivity|]. split; [reflexivity|]. split.
  - by rewrite length_fmap, length_iter.
  - intros i S Hi. eexists. split.
    + by rewrite list_lookup_fmap, Hi.
    + split; [by rewrite length_fmap, length_iter|].
      intros j x Hj. by rewrite list_lookup_fmap, Hj.
Qed.
End encoder.

(** ** Unions of equivalence classes *)

Section partition_facts.
Context `{Countable A} `{Countable K}.
Implicit Types (X S : gset A) (T : gset K) (key : A → K).

Lemma length_subsets (l : list K) : length (subsets l) = 2 ^ length l.
Proof.
  induction l as [|k l IH]; [done|].
  cbn [subsets length]. rewrite length_app, length_fmap, IH, Nat.pow_succ_r'. lia.
Qed.

Lemma elem_of_subsets (l : list K) T :
  T ∈ subsets l ↔ T ⊆ list_to_set l.
Proof.
  revert T. induction l as [|k l IH]; intros T; cbn [subsets list_to_set].
  - rewrite list_elem_of_singleton. set_solver.
  - rewrite elem_of_app, list_elem_of_fmap. setoid_rewrite IH. split.
    + intros [?|(T' & -> & ?)]; set_solver.
    + intros HT. destruct (decide (k ∈ T)) as [Hk|Hk].
      * right. exists (T ∖ {[k]}). split; [|set_solver].
        apply union_difference_singleton_L, Hk.
      * left. set_solver.
Qed.

Lemma NoDup_subsets (l : list K) : NoDup l → NoDup (subsets l).
Proof.
  induction 1 as [|k l Hk Hl IH]; cbn [subsets].
  { apply NoDup_singleton. }
  apply NoDup_app. split; [done|]. split.
  - intros T HT%elem_of_subsets (T' & -> & _)%list_elem_of_fmap.
    apply Hk. apply (elem_of_list_to_set (C:=gset K)). set_solver.
  - apply NoDup_fmap_2_strong; [|done].
    intros T1 T2 HT1%elem_of_subsets HT2%elem_of_subsets Heq.
    assert (k ∉ (list_to_set l : gset K)) by (by rewrite elem_of_list_to_set).
    set_solver.
Qed.

Lemma elem_of_generated key X S :
  S ∈ generated key X ↔ saturated key X S.
Proof.
  unfold generated, saturated.
  rewrite elem_of_list_to_set, list_elem_of_fmap.
  setoid_rewrite elem_of_subsets. rewrite list_to_set_elements_L. split.
  - intros (T & -> & HT). split.
    + intros x. rewrite elem_of_filter. tauto.
    + intros x y. rewrite !elem_of_filter. intros [? _] ? Hk. by rewrite <-Hk.
  - intros [HS Hsat]. exists (set_map key S). split; [|set_solver].
    apply set_eq. intros x. rewrite elem_of_filter, elem_of_map. split.
    + intros Hx. split; [eauto|by apply HS].
    + intros [(y & Hxy & Hy) Hx]. by apply (Hsat y x).
Qed.

Lemma size_generated key X :
  size (generated key X) = 2 ^ size (set_map key X : gset K).
Proof.
  unfold generated. rewrite size_list_to_set.
  { by rewrite length_fmap, length_subsets. }
  apply NoDup_fmap_2_strong; [|apply NoDup_subsets, NoDup_elements].
  intros T1 T2 HT1%elem_of_subsets HT2%elem_of_subsets Heq.
  rewrite list_to_set_elements_L in HT1, HT2.
  assert (∀ T T' : gset K, T ⊆ set_map key X →
    filter (λ x, key x ∈ T) X = filter (λ x, key x ∈ T') X → T ⊆ T') as Hsub.
  { intros T T' HT Hf k Hk.
    pose proof (HT k Hk) as Hx. apply elem_of_map in Hx as (x & -> & Hx).
    assert (x ∈ filter (λ x, key x ∈ T) X) as Hin by (by apply elem_of_filter).
    rewrite Hf in Hin. by apply elem_of_filter in Hin as [? _]. }
  apply set_eq. intros k. split; by apply Hsub.
Qed.

Lemma saturated_universe key X : saturated key X X.
Proof. split; [done|]. by intros x y _ ? _. Qed.

Lemma saturated_empty key X : saturated key X ∅.
Proof. split; [set_solver|]. intros x y Hx. set_solver. Qed.

Lemma saturated_complement key X S :
  saturated key X S → saturated key X (X ∖ S).
Proof.
  intros [HS Hsat]. split; [set_solver|].
  intros x y [Hx Hn]%elem_of_difference Hy Hk. apply elem_of_difference.
  split; [done|]. intros HyS. apply Hn. by apply (Hsat y x).
Qed.

Lemma saturated_union key X S1 S2 :
  saturated key X S1 → saturated key X S2 → saturated key X (S1 ∪ S2).
Proof.
  intros [HS1 Hsat1] [HS2 Hsat2]. split; [set_solver|].
  intros x y [Hx|Hx]%elem_of_union Hy Hk; apply elem_of_union.
  - left. by apply (Hsat1 x y).
  - right. by apply (Hsat2 x y).
Qed.

Lemma generated_closed key X : closed X (generated key X).
Proof.
  split.
  - intros S ?%elem_of_generated. by apply elem_of_generated, saturated_complement.
  - intros S1 S2 ?%elem_of_generated ?%elem_of_generated.
    by apply elem_of_generated, saturated_union.
Qed.
End partition_facts.

(** ** The incidence matrix and its distinct columns *)

Section columns.
Context `{Countable A}.
Implicit Types (rows : list (gset A)) (xs : list A).

Lemma fmap_seq_lookup {T U : Type} (g : nat → U) (h : T → U) (l : list T) :
  (∀ j x, l !! j = Some x → g j = h x) →
  g <$> seq 0 (length l) = h <$> l.
Proof.
  intros Hgh. apply list_eq. intros j. rewrite !list_lookup_fmap.
  destruct (l !! j) as [x|] eqn:Hj; simpl.
  - rewrite lookup_seq_lt by (by eapply lookup_lt_Some). simpl.
    f_equal. by apply Hgh.
  - rewrite lookup_seq_ge; [done|]. by apply lookup_ge_None.
Qed.

Lemma transpose_rows (M : matrix) (n : nat) :
  M ≠ [] → (∀ r, r ∈ M → length r = n) →
  transpose M = (λ j, (λ r, nth j r 0) <$> M) <$> seq 0 n.
Proof.
  destruct M as [|row M]; [done|]. intros _ Hlen. cbn [transpose].
  rewrite (Hlen row); [done|left].
Qed.

Lemma transpose_incidence rows xs :
  rows ≠ [] →
  transpose ((λ S, (λ x, if decide (x ∈ S) then 1 else 0) <$> xs) <$> rows)
  = column rows <$> xs.
Proof.
  intros Hrows. rewrite (transpose_rows _ (length xs)).
  - apply fmap_seq_lookup. intros j x Hj.
    rewrite <-list_fmap_compose. unfold column.
    apply list_fmap_ext. intros _ S' _. simpl.
    by rewrite nth_lookup, list_lookup_fmap, Hj.
  - by destruct rows.
  - intros r (S & -> & _)%list_elem_of_fmap. apply length_fmap.
Qed.

Lemma column_eq_iff rows x y :
  column rows x = column rows y ↔ ∀ S, S ∈ rows → (x ∈ S ↔ y ∈ S).
Proof.
  unfold column. induction rows as [|S rows IH]; cbn [fmap list_fmap].
  - split; [|done]. intros _ S HS. by apply elem_of_nil in HS.
  - split.
    + intros Heq. injection Heq as Hhd Htl.
      pose proof (proj1 IH Htl) as Hall.
      intros S' [->|?]%elem_of_cons; [|by apply Hall].
      destruct (decide (x ∈ S)), (decide (y ∈ S)); done.
    + intros Hall. f_equal.
      * assert (x ∈ S ↔ y ∈ S) by (apply Hall; left).
        destruct (decide (x ∈ S)), (decide (y ∈ S)); tauto.
      * apply (proj2 IH). intros S' ?. apply Hall. by right.
Qed.

Lemma dom_foldl_columns (l : list (nat * list nat))
    (d : gmap (list nat) (gset nat)) :
  dom (foldl (λ unique_cols '(idx, col),
                <[col := default ∅ (unique_cols !! col) ∪ {[idx]}]> unique_cols)
             d l)
  = dom d ∪ list_to_set l.*2.
Proof.
  revert d. induction l as [|[idx col] l IH]; intros d; simpl.
  - set_solver.
  - rewrite IH, dom_insert_L. set_solver.
Qed.

Lemma snd_enumerate {T : Type} (l : list T) : (enumerate l).*2 = l.
Proof.
  unfold enumerate. apply list_eq. intros j.
  rewrite list_lookup_fmap, list_lookup_imap. by destruct (l !! j).
Qed.

Lemma dom_unique_columns (M : matrix) :
  dom (unique_columns M) = list_to_set (transpose M).
Proof.
  unfold unique_columns. rewrite dom_foldl_columns, snd_enumerate. set_solver.
Qed.

Lemma size_unique_columns (M : matrix) :
  size (unique_columns M) = size (list_to_set (transpose M) : gset (list nat)).
Proof. by rewrite <-dom_unique_columns, size_dom. Qed.
End columns.

(** ** The fast verifier against the definition *)

Section verifiers.
Context `{Countable A} `{!IterOrder A} `{!IterOrder (gset A)}.
Implicit Types (F C : gset (gset A)) (X S : gset A).

Lemma sets2matrix_eq C (Xo : option (gset A)) :
  sets2matrix C Xo
  = Ok ((λ S, (λ x, if decide (x ∈ S) then 1 else 0) <$> iter (universe C Xo))
          <$> iter C, universe C Xo).
Proof. done. Qed.

Lemma list_to_set_columns (rows : list (gset A)) X :
  (list_to_set (column rows <$> iter X) : gset (list nat))
  = set_map (column rows) X.
Proof.
  apply set_eq. intros c.
  rewrite elem_of_list_to_set, list_elem_of_fmap, elem_of_map.
  by setoid_rewrite elem_of_iter.
Qed.

(** With at least one row, the dictionary of [unique_columns] has one key
    per distinct column, that is, per equivalence class. *)
Lemma size_unique_columns_sets2matrix C (Xo : option (gset A)) :
  C ≠ ∅ →
  size (unique_columns
          ((λ S, (λ x, if decide (x ∈ S) then 1 else 0) <$> iter (universe C Xo))
             <$> iter C))
  = size (set_map (column (iter C)) (universe C Xo) : gset (list nat)).
Proof.
  intros HC. rewrite size_unique_columns, transpose_incidence.
  - by rewrite list_to_set_columns.
  - intros Hnil. by apply HC, iter_nil_inv.
Qed.

(** Without rows the NumPy array has no column at all. *)
Lemma unique_columns_no_rows (Xo : option (gset A)) :
  unique_columns
    ((λ S, (λ x, if decide (x ∈ S) then 1 else 0) <$> iter (universe ∅ Xo))
       <$> iter (∅ : gset (gset A)))
  = ∅.
Proof. by rewrite iter_empty. Qed.

Lemma is_sigma_algebra_nonempty F (Xo : option (gset A)) :
  F ≠ ∅ →
  is_sigma_algebra F Xo
  = Ok (bool_decide
          (size F = 2 ^ size (set_map (column (iter F)) (universe F Xo)
                                : gset (list nat)))).
Proof.
  intros HF. unfold is_sigma_algebra. rewrite sets2matrix_eq. simpl.
  by rewrite size_unique_columns_sets2matrix.
Qed.

Lemma is_sigma_algebra_empty (Xo : option (gset A)) :
  is_sigma_algebra (∅ : gset (gset A)) Xo = Ok false.
Proof.
  unfold is_sigma_algebra. rewrite sets2matrix_eq. simpl.
  by rewrite unique_columns_no_rows.
Qed.

Lemma members_saturated F X S :
  S ∈ F → S ⊆ X → saturated (column (iter F)) X S.
Proof.
  intros HS HSX. split; [done|]. intros x y Hx _ Hcol.
  rewrite column_eq_iff in Hcol. by apply (Hcol S); [apply elem_of_iter|].
Qed.

Section closed_family.
Variables (F : gset (gset A)) (X : gset A).
Hypothesis nonempty : F ≠ ∅.
Hypothesis covered : ∀ S, S ∈ F → S ⊆ X.
Hypothesis compl : ∀ S, S ∈ F → X ∖ S ∈ F.
Hypothesis union : ∀ S1 S2, S1 ∈ F → S2 ∈ F → S1 ∪ S2 ∈ F.

Lemma closed_universe : X ∈ F.
Proof using All.
  destruct (set_choose_L F nonempty) as [S HS].
  replace X with (S ∪ X ∖ S); [by auto|].
  pose proof (covered S HS). apply set_eq. intros x.
  rewrite elem_of_union, elem_of_difference.
  destruct (decide (x ∈ S)); set_solver.
Qed.

Lemma closed_empty : ∅ ∈ F.
Proof using All.
  replace (∅ : gset A) with (X ∖ X) by set_solver.
  apply compl, closed_universe.
Qed.

Lemma closed_intersection S1 S2 : S1 ∈ F → S2 ∈ F → S1 ∩ S2 ∈ F.
Proof using All.
  intros H1 H2. pose proof (covered S1 H1). pose proof (covered S2 H2).
  replace (S1 ∩ S2) with (X ∖ (X ∖ S1 ∪ X ∖ S2)); [by auto|].
  apply set_eq. intros x.
  rewrite elem_of_intersection, elem_of_difference, elem_of_union,
    !elem_of_difference.
  destruct (decide (x ∈ S1)), (decide (x ∈ S2)); set_solver.
Qed.

(** The equivalence class of an element is obtained from the members
    of the family by complements and intersections. *)
Lemma closed_class_of (l : list (gset A)) x :
  (∀ S, S ∈ l → S ∈ F) →
  ∃ At, At ∈ F ∧ ∀ y, y ∈ At ↔ y ∈ X ∧ ∀ S, S ∈ l → (x ∈ S ↔ y ∈ S).
Proof using All.
  induction l as [|S l IH]; intros Hl.
  - exists X. split; [apply closed_universe|]. intros y. split; [|tauto].
    intros ?. split; [done|]. intros S HS. by apply elem_of_nil in HS.
  - destruct IH as (At & HAt & Hy).
    { intros S' ?. apply Hl. by right. }
    assert (S ∈ F) as HS by (apply Hl; left).
    exists ((if decide (x ∈ S) then S else X ∖ S) ∩ At). split.
    + apply closed_intersection; [|done]. destruct (decide (x ∈ S)); auto.
    + intros y. rewrite elem_of_intersection, Hy. split.
      * intros (Hhd & Hxy & Htl). split; [done|].
        intros S' [->|?]%elem_of_cons; [|by apply Htl].
        destruct (decide (x ∈ S)); set_solver.
      * intros (Hxy & Hall). split; [|split; [done|]].
        -- assert (x ∈ S ↔ y ∈ S) by (apply Hall; left).
           destruct (decide (x ∈ S)); set_solver.
        -- intros S' ?. apply Hall. by right.
Qed.

(** A union of equivalence classes is a union of members of the family. *)
Lemma closed_classes_of (l : list A) :
  ∃ U, U ∈ F ∧
    ∀ y, y ∈ U ↔
      ∃ x, x ∈ l ∧ y ∈ X ∧ column (iter F) x = column (iter F) y.
Proof using All.
  induction l as [|x l (U & HU & Hy)].
  - exists ∅. split; [apply closed_empty|]. intros y. split; [set_solver|].
    intros (x & Hx & _). by apply elem_of_nil in Hx.
  - destruct (closed_class_of (iter F) x) as (At & HAt & HyAt).
    { intros S. apply elem_of_iter. }
    exists (At ∪ U). split; [by apply union|].
    intros y. rewrite elem_of_union, Hy, HyAt. split.
    + intros [[? Hall]|(x' & ? & ? & ?)].
      * exists x. split; [left|]. split; [done|]. by apply column_eq_iff.
      * exists x'. split; [by right|done].
    + intros (x' & [->|?]%elem_of_cons & ? & Hcol).
      * left. split; [done|]. by apply column_eq_iff.
      * right. by exists x'.
Qed.

Lemma closed_generated_subseteq : generated (column (iter F)) X ⊆ F.
Proof using All.
  intros S [HS Hsat]%elem_of_generated.
  destruct (closed_classes_of (elements S)) as (U & HU & Hy).
  replace S with U; [done|]. apply set_eq. intros y. rewrite Hy. split.
  - intros (x & Hx%elem_of_elements & ? & ?). by apply (Hsat x y).
  - intros HyS. exists y. split; [by apply elem_of_elements|]. split; [|done].
    by apply HS.
Qed.
End closed_family.

(** For a family with at least one member, all of them subsets of [X]:
    the cardinality test of the fast verifier holds exactly when the
    family is closed under complement in [X] and under union. *)
Lemma cardinality_iff_closed F X :
  F ≠ ∅ → (∀ S, S ∈ F → S ⊆ X) →
  size F = 2 ^ size (set_map (column (iter F)) X : gset (list nat))
  ↔ closed X F.
Proof.
  intros HF Hcov.
  assert (F ⊆ generated (column (iter F)) X) as Hsub.
  { intros S HS. apply elem_of_generated, members_saturated; auto. }
  rewrite <-size_generated. split.
  - intros Hsize.
    rewrite (set_subseteq_size_eq _ _ Hsub) by (by rewrite Hsize).
    apply generated_closed.
  - intros [Hc Hu]. f_equal. apply set_eq. intros S. split; [apply Hsub|].
    by apply closed_generated_subseteq.
Qed.

Lemma union_of_covers F S : S ∈ F → S ⊆ union_of F.
Proof. intros HS x Hx. apply elem_of_union_of. eauto. Qed.

Lemma checks_pass_closed F X :
  checks_pass F X (iter F) = true ↔ closed X F.
Proof.
  rewrite checks_pass_true. unfold closed. split.
  - intros Hall. split.
    + intros S HS%elem_of_iter. by destruct (Hall S HS) as [? _].
    + intros S1 S2 HS1%elem_of_iter ?. destruct (Hall S1 HS1) as [_ Hu].
      by apply Hu.
  - intros [Hc Hu] S1 ?%elem_of_iter. split; [by apply Hc|].
    intros S2 ?. by apply Hu.
Qed.

(** C9, as the code has it: on every family with at least one member (the
    universal set derived as the union of the members) the fast verifier
    and the brute-force verifier return the same boolean. *)
Theorem verifiers_agree_nonempty F :
  F ≠ ∅ → is_sigma_algebra F None = is_sigma_algebra__brute F None.
Proof.
  intros HF. rewrite is_sigma_algebra_nonempty by done.
  unfold is_sigma_algebra__brute. f_equal. simpl.
  pose proof (cardinality_iff_closed F (union_of F) HF (union_of_covers F)) as Hiff.
  pose proof (checks_pass_closed F (union_of F)) as Hcp.
  destruct (checks_pass F (union_of F) (iter F)).
  - apply bool_decide_eq_true. apply Hiff, Hcp. done.
  - apply bool_decide_eq_false. intros Hsize%Hiff%Hcp. done.
Qed.
End verifiers.

(** ** The dictionary of columns and the table of representatives *)

Section lookups.
Implicit Types (cols : list (list nat)) (c : list nat) (s : gset nat).

Local Abbreviation columns_dict cols :=
  (foldl (λ (unique_cols : gmap (list nat) (gset nat)) '(idx, col),
            <[col := default ∅ (unique_cols !! col) ∪ {[idx]}]> unique_cols)
         ∅ (enumerate cols)).

Lemma enumerate_snoc {T : Type} (l : list T) (x : T) :
  enumerate (l ++ [x]) = enumerate l ++ [(length l, x)].
Proof.
  unfold enumerate. rewrite imap_app. simpl. by rewrite Nat.add_0_r.
Qed.

Lemma dom_columns_dict cols : dom (columns_dict cols) = list_to_set cols.
Proof. rewrite dom_foldl_columns, snd_enumerate. set_solver. Qed.

(** The value stored for a column is the set of the indices where that
    column occurs. *)
Lemma columns_dict_lookup cols c s :
  columns_dict cols !! c = Some s → ∀ j, j ∈ s ↔ cols !! j = Some c.
Proof.
  revert c s. induction cols as [|c0 cols IH] using rev_ind; intros c s.
  { cbn. by rewrite lookup_empty. }
  rewrite enumerate_snoc, foldl_app. cbn [foldl].
  destruct (decide (c0 = c)) as [->|Hne].
  - rewrite lookup_insert_eq. intros [= <-] j.
    rewrite elem_of_union, elem_of_singleton, lookup_snoc_Some.
    destruct (columns_dict cols !! c) as [s0|] eqn:Hc; simpl.
    + rewrite (IH c s0 Hc). split.
      * intros [Hj| ->]; [left|by right].
        split; [by eapply lookup_lt_Some|done].
      * intros [[_ Hj]|[-> _]]; [by left|by right].
    + assert (c ∉ cols) as Hnotin.
      { intros Hin. apply not_elem_of_dom in Hc. apply Hc.
        rewrite dom_columns_dict. by apply elem_of_list_to_set. }
      split.
      * intros [Hj| ->]; [set_solver|by right].
      * intros [[_ Hj]|[-> _]]; [|by right].
        destruct Hnotin. by eapply list_elem_of_lookup_2.
  - rewrite lookup_insert_ne by done. intros Hc j.
    rewrite (IH c s Hc), lookup_snoc_Some. split; [intros Hj; left|].
    + split; [by eapply lookup_lt_Some|done].
    + intros [[_ Hj]|[_ Heq]]; [done|congruence].
Qed.

Lemma foldr_min_spec (i : nat) (l : list nat) :
  foldr Nat.min i l ∈ i :: l ∧ ∀ j, j ∈ i :: l → foldr Nat.min i l ≤ j.
Proof.
  induction l as [|k l [Hin Hle]]; simpl.
  - split; [left|]. by intros j ->%list_elem_of_singleton.
  - split.
    + destruct (Nat.min_spec k (foldr Nat.min i l)) as [[_ ->]|[_ ->]].
      * right. left.
      * apply elem_of_cons in Hin as [->|Hin]; [left|by do 2 right].
    + intros j [->|[->|Hj]%elem_of_cons]%elem_of_cons.
      * specialize (Hle i). etrans; [apply Nat.le_min_r|apply Hle; left].
      * apply Nat.le_min_l.
      * etrans; [apply Nat.le_min_r|apply Hle; by right].
Qed.

Lemma py_min_spec s :
  s ≠ ∅ → ∃ m, py_min s = Ok m ∧ m ∈ s ∧ ∀ j, j ∈ s → m ≤ j.
Proof.
  intros Hs. unfold py_min. destruct (elements s) as [|i l] eqn:Hel.
  { destruct Hs. by apply leibniz_equiv, elements_empty_inv. }
  destruct (foldr_min_spec i l) as [Hin Hle]. eexists. split; [done|].
  split.
  - apply elem_of_elements. by rewrite Hel.
  - intros j Hj. apply Hle. rewrite <-Hel. by apply elem_of_elements.
Qed.

Lemma set_fold_insert_lookup (r : nat) (lk : gmap nat nat) s (i : nat) :
  set_fold (λ index lookups, <[index := r]> lookups) lk s !! i
  = if decide (i ∈ s) then Some r else lk !! i.
Proof.
  unfold set_fold. cbn [compose].
  assert (∀ l : list nat,
    foldr (λ index lookups, <[index := r]> lookups) lk l !! i
    = if decide (i ∈ l) then Some r else lk !! i) as Hfold.
  { induction l as [|k l IH]; cbn [foldr].
    - destruct (decide (i ∈ [])) as [Hd|]; [|done]. by apply elem_of_nil in Hd.
    - destruct (decide (k = i)) as [->|Hne].
      + rewrite lookup_insert_eq.
        destruct (decide (i ∈ i :: l)) as [|Hd]; [done|]. destruct Hd. left.
      + rewrite lookup_insert_ne, IH by done.
        destruct (decide (i ∈ l)) as [Hl|Hl], (decide (i ∈ k :: l)) as [Hkl|Hkl];
          try done.
        * destruct Hkl. by right.
        * apply elem_of_cons in Hkl as [?|?]; congruence. }
  rewrite Hfold.
  destruct (decide (i ∈ elements s)) as [Hl|Hl], (decide (i ∈ s)) as [Hs|Hs];
    try done.
  - destruct Hs. by apply elem_of_elements.
  - destruct Hl. by apply elem_of_elements.
Qed.

(** The loop over the classes: every index of a class is sent to the
    minimum of its class. *)
Lemma add_classes_spec (g : nat → nat) (vals : list (gset nat))
    (acc : gmap nat nat * list nat) :
  (∀ s, s ∈ vals → ∃ m, py_min s = Ok m ∧ ∀ i, i ∈ s → g i = m) →
  (∀ i r, acc.1 !! i = Some r → r = g i) →
  ∃ lk reps,
    for_each add_class acc vals = Ok (lk, reps)
    ∧ (∀ i r, lk !! i = Some r → r = g i)
    ∧ (∀ i, is_Some (lk !! i) ↔
            is_Some (acc.1 !! i) ∨ ∃ s, s ∈ vals ∧ i ∈ s).
Proof.
  revert acc. induction vals as [|s vals IH]; intros [lk0 reps0] Hvals Hacc.
  - exists lk0, reps0. split; [done|]. split; [done|]. intros i. split; [by left|].
    intros [?|(s & Hs & _)]; [done|]. by apply elem_of_nil in Hs.
  - destruct (Hvals s) as (m & Hm & Hg); [left|].
    cbn [for_each]. unfold add_class at 2. rewrite Hm. cbn.
    edestruct (IH (set_fold (λ index lookups, <[index := m]> lookups) lk0 s,
                   reps0 ++ [m])) as (lk & reps & Hrun & Hval & Hdom).
    { intros s' Hs'. apply Hvals. by right. }
    { intros i r. cbn. rewrite set_fold_insert_lookup.
      destruct (decide (i ∈ s)); [|by apply Hacc].
      intros [= <-]. symmetry. by apply Hg. }
    exists lk, reps. split; [done|]. split; [done|].
    intros i. rewrite Hdom. cbn. rewrite set_fold_insert_lookup. split.
    + intros [Hi|(s' & Hs' & Hi)].
      * destruct (decide (i ∈ s)); [|by left].
        right. exists s. split; [left|done].
      * right. exists s'. split; [by right|done].
    + intros [Hi|(s' & [->|Hs']%elem_of_cons & Hi)].
      * left. destruct (decide (i ∈ s)); [by eexists|done].
      * left. by rewrite decide_True.
      * right. by exists s'.
Qed.

Lemma first_index_spec cols i c :
  cols !! i = Some c →
  cols !! first_index cols i = Some c
  ∧ first_index cols i ≤ i
  ∧ ∀ j, j < first_index cols i → cols !! j ≠ Some c.
Proof.
  intros Hi. unfold first_index. rewrite Hi.
  destruct (list_find (c =.) cols) as [[m y]|] eqn:Hfind; simpl.
  - apply list_find_Some in Hfind as (Hm & <- & Hlt). split; [done|]. split.
    + destruct (decide (m ≤ i)) as [|Hgt]; [done|].
      destruct (Hlt i c Hi); [lia|done].
    + intros j Hj Hjc. by apply (Hlt j c).
  - apply list_find_None in Hfind. rewrite Forall_forall in Hfind.
    destruct (Hfind c); [|done]. by eapply list_elem_of_lookup_2.
Qed.

Lemma first_index_unique cols i c m :
  cols !! i = Some c → cols !! m = Some c →
  (∀ j, cols !! j = Some c → m ≤ j) → first_index cols i = m.
Proof.
  intros Hi Hm Hleast. destruct (first_index_spec cols i c Hi) as (Hf & _ & Hlt).
  pose proof (Hleast _ Hf).
  destruct (decide (first_index cols i = m)) as [|Hne]; [done|].
  destruct (Hlt m); [lia|done].
Qed.

Lemma first_index_eq_iff cols i j c :
  cols !! i = Some c → is_Some (cols !! j) →
  first_index cols i = first_index cols j ↔ cols !! j = Some c.
Proof.
  intros Hi [c' Hj]. split.
  - intros Heq. destruct (first_index_spec cols i c Hi) as (Hfi & _).
    destruct (first_index_spec cols j c' Hj) as (Hfj & _).
    rewrite Heq in Hfi. congruence.
  - intros Hjc. apply (first_index_unique cols i c); [done| |].
    + by destruct (first_index_spec cols j c Hjc) as (? & _).
    + intros k Hk. destruct (first_index_spec cols j c Hjc) as (_ & _ & Hlt).
      destruct (decide (first_index cols j ≤ k)); [done|].
      destruct (Hlt k); [lia|done].
Qed.

(** [lookups] is defined exactly on the column indices and holds the least
    index of an identical column; no [ValueError] is raised on the way. *)
Lemma build_lookups_columns cols :
  ∃ lk reps,
    build_lookups (map_to_list (columns_dict cols)).*2 = Ok (lk, reps)
    ∧ ∀ i, lk !! i
           = if decide (i < length cols) then Some (first_index cols i)
             else None.
Proof.
  destruct (add_classes_spec (first_index cols)
              (map_to_list (columns_dict cols)).*2 (∅, []))
    as (lk & reps & Hrun & Hval & Hdom).
  - intros s ([c s'] & -> & Hin%elem_of_map_to_list)%list_elem_of_fmap.
    cbn. pose proof (columns_dict_lookup cols c s' Hin) as Hpos.
    assert (c ∈ cols) as (j & Hj)%list_elem_of_lookup_1.
    { apply (elem_of_list_to_set (C:=gset (list nat))).
      rewrite <-dom_columns_dict. apply elem_of_dom. by eexists. }
    destruct (py_min_spec s') as (m & Hm & Hms & Hle).
    { intros ->. by apply (not_elem_of_empty (C:=gset nat) j), Hpos. }
    exists m. split; [done|]. intros i Hi%Hpos.
    apply (first_index_unique cols i c); [done|by apply Hpos|].
    intros k Hk. by apply Hle, Hpos.
  - intros i r. cbn. by rewrite lookup_empty.
  - exists lk, (merge_sort (≤) reps). split.
    { unfold build_lookups. by rewrite Hrun. }
    intros i. destruct (decide (i < length cols)) as [Hlt|Hge].
    + destruct (lookup_lt_is_Some_2 cols i Hlt) as [c Hc].
      assert (is_Some (lk !! i)) as [r Hr].
      { apply Hdom. right.
        assert (c ∈ dom (columns_dict cols)) as [s Hs]%elem_of_dom.
        { rewrite dom_columns_dict. apply elem_of_list_to_set.
          by eapply list_elem_of_lookup_2. }
        exists s. split.
        - apply list_elem_of_fmap. exists (c, s). split; [done|].
          by apply elem_of_map_to_list.
        - by apply (columns_dict_lookup cols c s Hs). }
      rewrite Hr. f_equal. by apply Hval.
    + destruct (lk !! i) as [r|] eqn:Hr; [|done].
      assert (is_Some (lk !! i)) as Hsome by (by eexists).
      apply Hdom in Hsome as [[? Hemp]|(s & Hs & Hi)].
      { cbn in Hemp. by rewrite lookup_empty in Hemp. }
      apply list_elem_of_fmap in Hs as ([c s'] & -> & Hin%elem_of_map_to_list).
      cbn in Hi. apply (columns_dict_lookup cols c s' Hin) in Hi.
      apply lookup_lt_Some in Hi. lia.
Qed.
End lookups.

(** ** The enumeration of the words and the construction of the subsets *)

Section words.
Context {A : Type}.
Implicit Types (lk : gmap nat nat) (w : list nat) (ixs : list (nat * A)).

Lemma elem_of_words_iter {T : Type} (alphabet : list T) (L : nat) (w : list T) :
  w ∈ words_iter alphabet L ↔ length w = L ∧ Forall (.∈ alphabet) w.
Proof.
  revert w. induction L as [|L IH]; intros w; cbn [words_iter].
  - rewrite list_elem_of_singleton. split.
    + by intros ->.
    + intros [Hlen _]. by destruct w.
  - rewrite list_elem_of_join. split.
    + intros (l & Hw & (a & -> & Ha)%list_elem_of_fmap).
      apply list_elem_of_fmap in Hw as (w' & -> & [Hlen Hall]%IH).
      split; [by rewrite length_cons, Hlen|by constructor].
    + intros [Hlen Hall]. destruct w as [|a w]; [done|].
      apply Forall_cons in Hall as [Ha Hall]. injection Hlen as Hlen.
      exists ((a ::.) <$> words_iter alphabet L). split.
      * apply list_elem_of_fmap. exists w. split; [done|]. by apply IH.
      * apply list_elem_of_fmap. by exists a.
Qed.

Lemma words_iter_binary_cons (L : nat) :
  ∃ w ws, words_iter [0; 1] L = w :: ws.
Proof.
  destruct (words_iter [0; 1] L) as [|w ws] eqn:Hws; [|by eauto].
  assert (replicate L 0 ∈ words_iter [0; 1] L) as Hin.
  { apply elem_of_words_iter. split; [apply length_replicate|].
    apply Forall_replicate. left. }
  rewrite Hws in Hin. by apply elem_of_nil in Hin.
Qed.

Lemma select_returns lk w ixs :
  (∀ i x, (i, x) ∈ ixs → ∃ r b, lk !! i = Some r ∧ w !! r = Some b) →
  ∃ subset,
    select lk w ixs = Ok subset
    ∧ ∀ x, x ∈ subset ↔
        ∃ i r, (i, x) ∈ ixs ∧ lk !! i = Some r ∧ w !! r = Some 1.
Proof.
  induction ixs as [|[i x] ixs IH]; intros Hall.
  - exists []. split; [done|]. intros x. split.
    + by intros ?%elem_of_nil.
    + intros (i & r & ?%elem_of_nil & _). done.
  - destruct (Hall i x) as (r & b & Hr & Hb); [left|].
    destruct IH as (subset & Hsel & Hsub).
    { intros i' x' ?. apply (Hall i' x'). by right. }
    cbn [select]. unfold getkey, getitem. rewrite Hr. cbn. rewrite Hb. cbn.
    rewrite Hsel. cbn. eexists. split; [done|]. intros y.
    destruct (decide (b = 1)) as [->|Hb1].
    + rewrite elem_of_cons, Hsub. split.
      * intros [->|(i' & r' & ? & ? & ?)].
        -- exists i, r. split; [left|done].
        -- exists i', r'. split; [by right|done].
      * intros (i' & r' & [[= -> ->]|?]%elem_of_cons & ? & ?); [by left|].
        right. by exists i', r'.
    + rewrite Hsub. split.
      * intros (i' & r' & ? & ? & ?). exists i', r'. split; [by right|done].
      * intros (i' & r' & [[= -> ->]|?]%elem_of_cons & Hr' & Hb').
        -- congruence.
        -- by exists i', r'.
Qed.

Lemma select_index_error lk w ixs :
  (∀ i x, (i, x) ∈ ixs → is_Some (lk !! i)) →
  (∃ i x r, (i, x) ∈ ixs ∧ lk !! i = Some r ∧ w !! r = None) →
  select lk w ixs = Raise IndexError.
Proof.
  induction ixs as [|[i x] ixs IH]; intros Hkeys (i' & x' & r' & Hin & Hr' & Hw).
  { by apply elem_of_nil in Hin. }
  destruct (Hkeys i x) as [r Hr]; [left|].
  cbn [select]. unfold getkey, getitem. rewrite Hr. cbn.
  destruct (w !! r) as [b|] eqn:Hb; cbn; [|done].
  rewrite IH; [done| |].
  - intros i'' x'' ?. apply (Hkeys i'' x''). by right.
  - apply elem_of_cons in Hin as [[= -> ->]|Hin]; [congruence|].
    by exists i', x', r'.
Qed.

Lemma elem_of_enumerate {T : Type} (l : list T) (i : nat) (x : T) :
  (i, x) ∈ enumerate l ↔ l !! i = Some x.
Proof.
  unfold enumerate. rewrite elem_of_lookup_imap. split.
  - by intros (j & y & [= -> ->] & Hj).
  - intros Hi. by exists i, x.
Qed.

(** The loop over the words collects the subsets, or stops at the first
    word whose subset cannot be built. *)
Lemma for_each_words_returns `{Countable A} lk ixs (ws : list (list nat))
    (acc : gset (gset A)) :
  (∀ w, w ∈ ws → ∃ subset, select lk w ixs = Ok subset) →
  ∃ sC,
    for_each (λ sC word,
                subset ← select lk word ixs; Ok ({[list_to_set subset]} ∪ sC))
             acc ws = Ok sC
    ∧ ∀ S, S ∈ sC ↔
        S ∈ acc ∨ ∃ w subset, w ∈ ws ∧ select lk w ixs = Ok subset
                               ∧ S = list_to_set subset.
Proof.
  revert acc. induction ws as [|w ws IH]; intros acc Hall.
  - exists acc. split; [done|]. intros S. split; [by left|].
    intros [?|(w & ? & ?%elem_of_nil & _)]; done.
  - destruct (Hall w) as [subset Hsel]; [left|].
    cbn [for_each]. rewrite Hsel. cbn.
    destruct (IH ({[list_to_set subset]} ∪ acc)) as (sC & Hrun & HsC).
    { intros w' ?. apply Hall. by right. }
    exists sC. split; [done|]. intros S.
    rewrite HsC, elem_of_union, elem_of_singleton. split.
    + intros [[->|?]|(w' & subset' & ? & ? & ?)].
      * right. exists w, subset. split; [left|done].
      * by left.
      * right. exists w', subset'. split; [by right|done].
    + intros [?|(w' & subset' & [->|?]%elem_of_cons & Hsel' & ->)].
      * left. by right.
      * left. left. congruence.
      * right. by exists w', subset'.
Qed.

Lemma for_each_words_raises `{Countable A} lk ixs (w : list nat)
    (ws : list (list nat)) (acc : gset (gset A)) (e : exception) :
  select lk w ixs = Raise e →
  for_each (λ sC word,
              subset ← select lk word ixs; Ok ({[list_to_set subset]} ∪ sC))
           acc (w :: ws) = Raise e.
Proof. intros Hsel. cbn [for_each]. by rewrite Hsel. Qed.
End words.

(** ** What [sigma_algebra] does on every input *)

Section generator.
Context `{Countable A} `{!IterOrder A} `{!IterOrder (gset A)}.
Implicit Types (F C : gset (gset A)) (X S : gset A).

Lemma build_lookups_unique_columns (M : matrix) :
  ∃ lk reps,
    build_lookups (map_to_list (unique_columns M)).*2 = Ok (lk, reps)
    ∧ ∀ i, lk !! i
           = if decide (i < length (transpose M))
             then Some (first_index (transpose M) i) else None.
Proof. apply build_lookups_columns. Qed.

(** With the empty collection the table of representatives is empty, and
    the first element of a non-empty universal set has no entry in it. *)
Theorem sigma_algebra_key_error X :
  X ≠ ∅ → sigma_algebra (∅ : gset (gset A)) (Some X) = Raise KeyError.
Proof.
  intros HX. unfold sigma_algebra. rewrite sets2matrix_eq. cbn.
  rewrite iter_empty. cbn.
  destruct (iter X) as [|x xs] eqn:Hxs; [|done].
  destruct HX. by apply iter_nil_inv.
Qed.

Lemma sigma_algebra_no_rows_no_elements (Xo : option (gset A)) :
  universe ∅ Xo = ∅ →
  sigma_algebra (∅ : gset (gset A)) Xo = Ok {[ ∅ ]}.
Proof.
  intros HX. unfold sigma_algebra. rewrite sets2matrix_eq. cbn.
  rewrite HX, !iter_empty. cbn. f_equal; set_solver.
Qed.

Section nonempty_collection.
Variables (C : gset (gset A)) (Xo : option (gset A)).
Hypothesis nonempty : C ≠ ∅.

Local Abbreviation X := (universe C Xo).
Local Abbreviation cols := (column (iter C) <$> iter (universe C Xo)).
Local Abbreviation k :=
  (size (set_map (column (iter C)) (universe C Xo) : gset (list nat))).

Lemma sigma_algebra_run :
  ∃ lk,
    sigma_algebra C Xo
    = for_each (λ sC word,
                  subset ← select lk word (enumerate (iter X));
                  Ok ({[list_to_set subset]} ∪ sC))
               ∅ (words_iter [0; 1] k)
    ∧ ∀ i, lk !! i
           = if decide (i < size X) then Some (first_index cols i) else None.
Proof using nonempty.
  destruct (build_lookups_unique_columns
              ((λ S, (λ x, if decide (x ∈ S) then 1 else 0) <$> iter X)
                 <$> iter C)) as (lk & reps & Hrun & Hlk).
  exists lk. split.
  - unfold sigma_algebra. rewrite sets2matrix_eq. cbn. rewrite Hrun. cbn.
    by rewrite size_unique_columns_sets2matrix.
  - intros i. rewrite Hlk, transpose_incidence.
    + by rewrite length_fmap, length_iter.
    + intros Hnil. by apply nonempty, iter_nil_inv.
Qed.

Lemma cols_lookup i x : iter X !! i = Some x → cols !! i = Some (column (iter C) x).
Proof. apply list_lookup_fmap_Some_2. Qed.

Lemma first_index_cols_eq i j x y :
  iter X !! i = Some x → iter X !! j = Some y →
  first_index cols i = first_index cols j
  ↔ column (iter C) x = column (iter C) y.
Proof.
  intros Hi%cols_lookup Hj%cols_lookup.
  rewrite (first_index_eq_iff cols i j _ Hi) by (by eexists).
  rewrite Hj. split; [by intros [= ->]|by intros ->].
Qed.

Lemma first_index_cols_lookup i x :
  iter X !! i = Some x →
  ∃ x', iter X !! first_index cols i = Some x'
        ∧ column (iter C) x' = column (iter C) x.
Proof.
  intros Hi%cols_lookup.
  destruct (first_index_spec cols i _ Hi) as (Hf & _).
  apply list_lookup_fmap_Some_1 in Hf as (x' & Heq & Hx'). by exists x'.
Qed.

(** A class whose least column index is not below the number of classes
    makes every word too short. *)
Theorem sigma_algebra_index_error :
  (∃ i, i < size X ∧ k ≤ first_index cols i) →
  sigma_algebra C Xo = Raise IndexError.
Proof using nonempty.
  intros (i & Hi & Hk). destruct sigma_algebra_run as (lk & -> & Hlk).
  destruct (words_iter_binary_cons k) as (w & ws & Hws). rewrite Hws.
  apply for_each_words_raises, select_index_error.
  - intros j y Hj%elem_of_enumerate. rewrite Hlk.
    apply lookup_lt_Some in Hj. rewrite length_iter in Hj.
    by rewrite decide_True.
  - rewrite <-length_iter in Hi.
    destruct (lookup_lt_is_Some_2 _ _ Hi) as [x Hx].
    exists i, x, (first_index cols i). split; [by apply elem_of_enumerate|].
    split.
    + rewrite Hlk, decide_True; [done|]. by rewrite <-length_iter.
    + apply lookup_ge_None.
      assert (w ∈ words_iter [0; 1] k) as [-> _]%elem_of_words_iter; [|done].
      rewrite Hws. left.
Qed.

Section good_order.
Hypothesis good : ∀ i, i < size X → first_index cols i < k.

Lemma select_word (lk : gmap nat nat) (w : list nat) :
  (∀ i, lk !! i
        = if decide (i < size X) then Some (first_index cols i) else None) →
  length w = k →
  ∃ subset,
    select lk w (enumerate (iter X)) = Ok subset
    ∧ ∀ x, x ∈ subset ↔
        ∃ i, iter X !! i = Some x ∧ w !! first_index cols i = Some 1.
Proof using good.
  intros Hlk Hlen.
  assert (∀ i x, iter X !! i = Some x →
            lk !! i = Some (first_index cols i)) as Hlk'.
  { intros i x Hi%lookup_lt_Some. rewrite length_iter in Hi.
    by rewrite Hlk, decide_True. }
  destruct (select_returns lk w (enumerate (iter X))) as (subset & Hsel & Hsub).
  { intros i x Hi%elem_of_enumerate. exists (first_index cols i).
    destruct (lookup_lt_is_Some_2 w (first_index cols i)) as [b Hb].
    - rewrite Hlen. apply good. apply lookup_lt_Some in Hi.
      by rewrite <-length_iter.
    - exists b. split; [by eapply Hlk'|done]. }
  exists subset. split; [done|]. intros x. rewrite Hsub. split.
  - intros (i & r & Hi%elem_of_enumerate & Hr & Hw).
    rewrite (Hlk' i x Hi) in Hr. injection Hr as <-. by exists i.
  - intros (i & Hi & Hw). exists i, (first_index cols i).
    split; [by apply elem_of_enumerate|]. split; [by eapply Hlk'|done].
Qed.

Lemma selected_saturated (w : list nat) (subset : list A) :
  (∀ x, x ∈ subset ↔
     ∃ i, iter X !! i = Some x ∧ w !! first_index cols i = Some 1) →
  saturated (column (iter C)) X (list_to_set subset).
Proof.
  intros Hsub. split.
  - intros x (i & Hi & _)%elem_of_list_to_set%Hsub.
    by eapply elem_of_iter, list_elem_of_lookup_2.
  - intros x y (i & Hi & Hw)%elem_of_list_to_set%Hsub Hy Hcol.
    apply elem_of_iter, list_elem_of_lookup_1 in Hy as [j Hj].
    apply elem_of_list_to_set, Hsub. exists j. split; [done|].
    by rewrite <-(proj2 (first_index_cols_eq i j x y Hi Hj) Hcol).
Qed.

Lemma saturated_selected S :
  saturated (column (iter C)) X S →
  ∃ w, length w = k ∧ Forall (.∈ [0; 1]) w
    ∧ ∀ x, x ∈ S ↔
        ∃ i, iter X !! i = Some x ∧ w !! first_index cols i = Some 1.
Proof using good.
  intros [HS Hsat].
  set (bit := λ r, from_option (λ x, if decide (x ∈ S) then 1 else 0) 0
                     (iter X !! r)).
  exists (bit <$> seq 0 k). split; [by rewrite length_fmap, length_seq|].
  split.
  { apply Forall_fmap, Forall_forall. intros r _. unfold bit. cbn.
    destruct (iter X !! r) as [x|]; cbn; [|left].
    destruct (decide (x ∈ S)); [right; left|left]. }
  assert (∀ i x, iter X !! i = Some x →
            (bit <$> seq 0 k) !! first_index cols i = Some 1 ↔ x ∈ S) as Hbit.
  { intros i x Hi.
    destruct (first_index_cols_lookup i x Hi) as (x' & Hx' & Hcol).
    rewrite list_lookup_fmap, lookup_seq_lt.
    2:{ apply good. apply lookup_lt_Some in Hi. by rewrite <-length_iter. }
    cbn. unfold bit. rewrite Hx'. cbn.
    assert (x ∈ X) by (by eapply elem_of_iter, list_elem_of_lookup_2).
    assert (x' ∈ X) by (by eapply elem_of_iter, list_elem_of_lookup_2).
    destruct (decide (x' ∈ S)) as [Hin|Hout].
    - split; [|done]. intros _. by apply (Hsat x' x).
    - split; [done|]. intros Hx. destruct Hout. by apply (Hsat x x'). }
  intros x. split.
  - intros Hx. pose proof (HS x Hx) as HxX.
    apply elem_of_iter, list_elem_of_lookup_1 in HxX as [i Hi].
    exists i. split; [done|]. by apply (Hbit i x).
  - intros (i & Hi & Hw). by apply (Hbit i x Hi).
Qed.

(** When the least column index of every class is below the number of
    classes, the result is the family of the unions of classes. *)
Theorem sigma_algebra_generated :
  sigma_algebra C Xo = Ok (generated (column (iter C)) X).
Proof using nonempty good.
  destruct sigma_algebra_run as (lk & -> & Hlk).
  destruct (for_each_words_returns lk (enumerate (iter X))
              (words_iter [0; 1] k) ∅) as (sC & -> & HsC).
  { intros w [Hlen _]%elem_of_words_iter.
    destruct (select_word lk w Hlk Hlen) as (subset & ? & _). by exists subset. }
  f_equal. apply set_eq. intros S. rewrite HsC, elem_of_generated. split.
  - intros [?|(w & subset & [Hlen _]%elem_of_words_iter & Hsel & ->)];
      [set_solver|].
    destruct (select_word lk w Hlk Hlen) as (subset' & Hsel' & Hsub).
    rewrite Hsel in Hsel'. injection Hsel' as <-.
    by apply (selected_saturated w).
  - intros (w & Hlen & Hbits & HS)%saturated_selected. right.
    destruct (select_word lk w Hlk Hlen) as (subset & Hsel & Hsub).
    exists w, subset. split; [by apply elem_of_words_iter|]. split; [done|].
    apply set_eq. intros x. by rewrite HS, elem_of_list_to_set, Hsub.
Qed.
End good_order.
End nonempty_collection.
End generator.

(** ** The family returned by [sigma_algebra], when it returns *)

Section returned.
Context `{Countable A} `{!IterOrder A} `{!IterOrder (gset A)}.
Implicit Types (F C sC : gset (gset A)) (X S : gset A).

Lemma union_of_empty : union_of (∅ : gset (gset A)) = ∅.
Proof. unfold union_of. by rewrite iter_empty. Qed.

Lemma generated_no_elements `{Countable K} (key : A → K) :
  generated key ∅ = {[ ∅ ]}.
Proof.
  apply set_eq. intros S. rewrite elem_of_generated, elem_of_singleton. split.
  - intros [HS _]. set_solver.
  - intros ->. apply saturated_empty.
Qed.

(** Whenever [sigma_algebra] returns, it returns the family of the unions
    of equivalence classes. *)
Theorem sigma_algebra_returns C (Xo : option (gset A)) sC :
  sigma_algebra C Xo = Ok sC →
  sC = generated (column (iter C)) (universe C Xo).
Proof.
  intros Hrun. destruct (decide (C = ∅)) as [->|HC].
  - destruct (decide (universe ∅ Xo = ∅)) as [HX|HX].
    + rewrite sigma_algebra_no_rows_no_elements in Hrun by done.
      injection Hrun as <-. by rewrite HX, generated_no_elements.
    + destruct Xo as [X|]; cbn in HX.
      * by rewrite sigma_algebra_key_error in Hrun.
      * by rewrite union_of_empty in HX.
  - set (cols := column (iter C) <$> iter (universe C Xo)).
    set (k := size (set_map (column (iter C)) (universe C Xo)
                      : gset (list nat))).
    destruct (decide (Forall (λ i, first_index cols i < k)
                        (seq 0 (size (universe C Xo))))) as [Hgood|Hbad].
    + rewrite sigma_algebra_generated in Hrun; [congruence|done|].
      intros i Hi. rewrite Forall_forall in Hgood. apply Hgood.
      apply elem_of_seq. lia.
    + apply not_Forall_Exists, Exists_exists in Hbad as (i & Hi & Hk);
        [|apply _].
      apply elem_of_seq in Hi.
      rewrite sigma_algebra_index_error in Hrun; [done..|].
      exists i. split; [lia|]. by apply Nat.nlt_ge.
Qed.

Lemma membership_eq_iff C x y :
  membership C x = membership C y ↔ column (iter C) x = column (iter C) y.
Proof.
  rewrite column_eq_iff. unfold membership. split.
  - intros Heq S HS%elem_of_iter.
    assert (∀ z, z ∈ S ↔ S ∈ filter (λ S, z ∈ S) C) as Hz.
    { intros z. rewrite elem_of_filter. tauto. }
    by rewrite (Hz x), (Hz y), Heq.
  - intros Hall. apply set_eq. intros S. rewrite !elem_of_filter.
    split; intros [Hin HS]; (split; [|done]);
      by apply (Hall S); [apply elem_of_iter|].
Qed.

(** Two keys with the same equivalence classes have as many classes. *)
Lemma size_set_map_keys `{Countable K1} `{Countable K2}
    (key1 : A → K1) (key2 : A → K2) X :
  (∀ x y, key1 x = key1 y ↔ key2 x = key2 y) →
  size (set_map key1 X : gset K1) = size (set_map key2 X : gset K2).
Proof.
  intros Hkeys. apply (Nat.pow_inj_r 2); [lia|].
  rewrite <-!size_generated. f_equal. apply set_eq. intros S.
  rewrite !elem_of_generated. unfold saturated.
  split; intros [HS Hsat]; (split; [done|]); intros x y Hx Hy Hk;
    apply (Hsat x y); try done; by apply Hkeys.
Qed.

Lemma num_classes_columns C X :
  num_classes C X = size (set_map (column (iter C)) X : gset (list nat)).
Proof. apply size_set_map_keys, membership_eq_iff. Qed.

(** Whenever [sigma_algebra] returns, the family has [2 ^ k] members, [k]
    the number of equivalence classes. *)
Theorem sigma_algebra_returns_size C (Xo : option (gset A)) sC :
  sigma_algebra C Xo = Ok sC →
  size sC = 2 ^ num_classes C (universe C Xo).
Proof.
  intros ->%sigma_algebra_returns.
  by rewrite size_generated, num_classes_columns.
Qed.

(** Whenever [sigma_algebra] returns, the family is closed under
    complement and union. *)
Theorem sigma_algebra_returns_closed C (Xo : option (gset A)) sC :
  sigma_algebra C Xo = Ok sC → closed (universe C Xo) sC.
Proof. intros ->%sigma_algebra_returns. apply generated_closed. Qed.

(** Whenever [sigma_algebra] returns, the family contains the universal
    set, the empty set and every member of the collection that is a
    subset of the universal set. *)
Theorem sigma_algebra_returns_members C (Xo : option (gset A)) sC :
  sigma_algebra C Xo = Ok sC →
  universe C Xo ∈ sC ∧ ∅ ∈ sC
  ∧ ∀ S, S ∈ C → S ⊆ universe C Xo → S ∈ sC.
Proof.
  intros ->%sigma_algebra_returns. split; [|split].
  - apply elem_of_generated, saturated_universe.
  - apply elem_of_generated, saturated_empty.
  - intros S HS HSX. by apply elem_of_generated, members_saturated.
Qed.

Lemma union_of_generated `{Countable K} (key : A → K) X :
  union_of (generated key X) = X.
Proof.
  apply set_eq. intros x. rewrite elem_of_union_of. split.
  - intros (S & [HS _]%elem_of_generated & Hx). by apply HS.
  - intros Hx. exists X. split; [|done].
    apply elem_of_generated, saturated_universe.
Qed.

(** Whenever [sigma_algebra] returns, the fast verifier accepts the
    family. *)
Theorem sigma_algebra_returns_verified C (Xo : option (gset A)) sC :
  sigma_algebra C Xo = Ok sC → is_sigma_algebra sC None = Ok true.
Proof.
  intros ->%sigma_algebra_returns.
  set (X := universe C Xo). set (F := generated (column (iter C)) X).
  assert (F ≠ ∅) as HF.
  { intros HF. apply (not_elem_of_empty (C:=gset (gset A)) X).
    rewrite <-HF. apply elem_of_generated, saturated_universe. }
  rewrite is_sigma_algebra_nonempty by done. f_equal.
  apply bool_decide_eq_true. cbn. unfold F at 3. rewrite union_of_generated.
  apply cardinality_iff_closed; [done| |apply generated_closed].
  intros S [HS _]%elem_of_generated. done.
Qed.
End returned.

(** ** Keys with the same equivalence classes *)

Section same_classes.
Context `{Countable A}.
Implicit Types (X S : gset A).

Lemma generated_ext `{Countable K1} `{Countable K2}
    (key1 : A → K1) (key2 : A → K2) X :
  (∀ x y, x ∈ X → y ∈ X → (key1 x = key1 y ↔ key2 x = key2 y)) →
  generated key1 X = generated key2 X.
Proof.
  intros Hkeys. apply set_eq. intros S. rewrite !elem_of_generated.
  unfold saturated.
  split; intros [HS Hsat]; (split; [done|]); intros x y Hx Hy Hk;
    apply (Hsat x y); try done; apply Hkeys; auto.
Qed.

Lemma size_set_map_ext `{Countable K1} `{Countable K2}
    (key1 : A → K1) (key2 : A → K2) X :
  (∀ x y, x ∈ X → y ∈ X → (key1 x = key1 y ↔ key2 x = key2 y)) →
  size (set_map key1 X : gset K1) = size (set_map key2 X : gset K2).
Proof.
  intros Hkeys. apply (Nat.pow_inj_r 2); [lia|].
  rewrite <-!size_generated. f_equal. by apply generated_ext.
Qed.

Lemma first_index_fmap_ext (key1 key2 : A → list nat) (xs : list A) (i : nat) :
  (∀ x y, x ∈ xs → y ∈ xs → (key1 x = key1 y ↔ key2 x = key2 y)) →
  first_index (key1 <$> xs) i = first_index (key2 <$> xs) i.
Proof.
  intros Hkeys. destruct (xs !! i) as [x|] eqn:Hi.
  - pose proof (list_lookup_fmap_Some_2 key2 xs i x Hi) as Hi2.
    destruct (first_index_spec _ _ _ Hi2) as (Hm & _ & Hlt).
    apply list_lookup_fmap_Some_1 in Hm as (xm & Hkm & Hxm).
    apply (first_index_unique _ i (key1 x)).
    + by apply list_lookup_fmap_Some_2.
    + rewrite list_lookup_fmap, Hxm. cbn. f_equal.
      apply Hkeys; [by eapply list_elem_of_lookup_2..|done].
    + intros j (xj & Hkj & Hxj)%list_lookup_fmap_Some_1.
      destruct (decide (first_index (key2 <$> xs) i ≤ j)) as [|Hgt]; [done|].
      destruct (Hlt j); [lia|].
      rewrite list_lookup_fmap, Hxj. cbn. f_equal.
      apply Hkeys; [by eapply list_elem_of_lookup_2..|done].
  - unfold first_index. by rewrite !list_lookup_fmap, Hi.
Qed.
End same_classes.

(** ** Further properties of the generator *)

Section further.
Context `{Countable A} `{!IterOrder A} `{!IterOrder (gset A)}.
Implicit Types (F C sC : gset (gset A)) (X S : gset A).






(** Elements that the collection separates pairwise. *)
Lemma sigma_algebra_separated_aux C (Xo : option (gset A)) :
  C ≠ ∅ →
  (∀ x y, x ∈ universe C Xo → y ∈ universe C Xo →
          (∀ S, S ∈ C → (x ∈ S ↔ y ∈ S)) → x = y) →
  ∃ sC, sigma_algebra C Xo = Ok sC
        ∧ (∀ S, S ∈ sC ↔ S ⊆ universe C Xo)
        ∧ size sC = 2 ^ size (universe C Xo).
Proof.
  intros HC Hsep. set (X := universe C Xo) in *.
  assert (∀ x y, x ∈ X → y ∈ X →
            column (iter C) x = column (iter C) y → x = y) as Hinj.
  { intros x y Hx Hy Hk. apply (Hsep x y Hx Hy). intros S HS.
    rewrite column_eq_iff in Hk. by apply Hk, elem_of_iter. }
  assert (NoDup (column (iter C) <$> iter X)) as Hnodup.
  { apply NoDup_fmap_2_strong; [|apply NoDup_iter].
    intros x y Hx%elem_of_iter Hy%elem_of_iter. by apply Hinj. }
  assert (size (set_map (column (iter C)) X : gset (list nat)) = size X)
    as Hk.
  { rewrite <-list_to_set_columns, size_list_to_set by done.
    by rewrite length_fmap, length_iter. }
  exists (generated (column (iter C)) X). split; [|split].
  - apply sigma_algebra_generated; [done|]. fold X. rewrite Hk.
    intros i Hi. rewrite <-length_iter in Hi.
    destruct (lookup_lt_is_Some_2 _ _ Hi) as [x Hx].
    pose proof (list_lookup_fmap_Some_2 (column (iter C)) _ _ _ Hx) as Hc.
    rewrite (first_index_unique _ i _ i Hc Hc); [by rewrite <-length_iter|].
    intros j Hj. by rewrite (NoDup_lookup _ i j _ Hnodup Hc Hj).
  - intros S. rewrite elem_of_generated. split; [by intros [? _]|].
    intros HS. split; [done|]. intros x y Hx Hy Hkey.
    by rewrite <-(Hinj x y (HS x Hx) Hy Hkey).
  - by rewrite size_generated, Hk.
Qed.

(** Elements that no member of the collection separates. *)
Lemma sigma_algebra_one_class_aux C (Xo : option (gset A)) :
  C ≠ ∅ → universe C Xo ≠ ∅ →
  (∀ x y S, x ∈ universe C Xo → y ∈ universe C Xo → S ∈ C →
            (x ∈ S ↔ y ∈ S)) →
  sigma_algebra C Xo = Ok {[ ∅; universe C Xo ]}.
Proof.
  intros HC HX Hsame. set (X := universe C Xo) in *.
  assert (∀ x y, x ∈ X → y ∈ X → column (iter C) x = column (iter C) y)
    as Hkey.
  { intros x y Hx Hy. apply column_eq_iff. intros S HS%elem_of_iter.
    by apply Hsame. }
  destruct (set_choose_L X HX) as [x0 Hx0].
  assert (size (set_map (column (iter C)) X : gset (list nat)) = 1) as Hk.
  { replace (set_map (column (iter C)) X : gset (list nat))
      with ({[ column (iter C) x0 ]} : gset (list nat));
      [apply size_singleton|].
    apply set_eq. intros c. rewrite elem_of_singleton, elem_of_map. split.
    - intros ->. by exists x0.
    - intros (x & -> & Hx). by apply Hkey. }
  rewrite sigma_algebra_generated; [|done|].
  - f_equal. apply set_eq. intros S.
    rewrite elem_of_generated, elem_of_union, !elem_of_singleton. split.
    + intros [HS Hsat]. destruct (decide (S = ∅)) as [|HSne]; [by left|].
      right. destruct (set_choose_L S HSne) as [x Hx].
      apply set_eq. intros y. split; [apply HS|]. intros Hy.
      apply (Hsat x y Hx Hy). by apply Hkey; [apply HS|].
    + intros [->| ->]; [apply saturated_empty|apply saturated_universe].
  - fold X. rewrite Hk. intros i Hi. rewrite <-length_iter in Hi.
    destruct (lookup_lt_is_Some_2 _ _ Hi) as [x Hx].
    destruct (lookup_lt_is_Some_2 (iter X) 0) as [x' Hx']; [lia|].
    pose proof (list_lookup_fmap_Some_2 (column (iter C)) _ _ _ Hx) as Hc.
    rewrite (first_index_unique _ i _ 0 Hc); [lia| |intros; lia].
    rewrite list_lookup_fmap, Hx'. cbn. f_equal.
    apply Hkey; by eapply elem_of_iter, list_elem_of_lookup_2.
Qed.
End further.

(** ** The order of the rows plays no role *)

Section row_order.
Context `{Countable A} (O : IterOrder A) (R1 R2 : IterOrder (gset A)).
Implicit Types (F C sC : gset (gset A)) (X S : gset A).

Lemma universe_row_order C (Xo : option (gset A)) :
  universe (IterOrder1:=R1) C Xo = universe (IterOrder1:=R2) C Xo.
Proof.
  destruct Xo as [X|]; cbn; [done|]. apply set_eq. intros x.
  by rewrite !elem_of_union_of.
Qed.

Lemma column_row_order C x y :
  column (iter (IterOrder:=R1) C) x = column (iter (IterOrder:=R1) C) y
  ↔ column (iter (IterOrder:=R2) C) x = column (iter (IterOrder:=R2) C) y.
Proof.
  by rewrite <-(membership_eq_iff (IterOrder1:=R1)),
             <-(membership_eq_iff (IterOrder1:=R2)).
Qed.

Lemma sigma_algebra_row_order_aux C (Xo : option (gset A)) :
  sigma_algebra (IterOrder0:=O) (IterOrder1:=R1) C Xo
  = sigma_algebra (IterOrder0:=O) (IterOrder1:=R2) C Xo.
Proof.
  pose proof (universe_row_order C Xo) as HX.
  destruct (decide (C = ∅)) as [->|HC].
  - destruct (decide (universe (IterOrder1:=R1) ∅ Xo = ∅)) as [HX1|HX1].
    + rewrite !sigma_algebra_no_rows_no_elements; [done|congruence|done].
    + destruct Xo as [X|]; cbn in HX1.
      * by rewrite !sigma_algebra_key_error.
      * by rewrite union_of_empty in HX1.
  - set (X := universe (IterOrder1:=R1) C Xo) in *.
    set (c1 := column (iter (IterOrder:=R1) C)).
    set (c2 := column (iter (IterOrder:=R2) C)).
    assert (∀ i, first_index (c1 <$> iter X) i = first_index (c2 <$> iter X) i)
      as Hfirst.
    { intros i. apply first_index_fmap_ext. intros x y _ _.
      apply column_row_order. }
    assert (size (set_map c1 X : gset (list nat))
            = size (set_map c2 X : gset (list nat))) as Hk.
    { apply size_set_map_ext. intros x y _ _. apply column_row_order. }
    destruct (decide (Forall (λ i, first_index (c1 <$> iter X) i
                                   < size (set_map c1 X : gset (list nat)))
                        (seq 0 (size X)))) as [Hgood|Hbad].
    + rewrite Forall_forall in Hgood.
      rewrite !sigma_algebra_generated; try done.
      * rewrite <-HX. fold X c1 c2. f_equal. apply generated_ext.
        intros x y _ _. apply column_row_order.
      * rewrite <-HX. fold X c2. intros i Hi. rewrite <-Hfirst, <-Hk.
        apply Hgood, elem_of_seq. lia.
      * fold X c1. intros i Hi. apply Hgood, elem_of_seq. lia.
    + apply not_Forall_Exists, Exists_exists in Hbad as (i & Hi & Hlt);
        [|apply _].
      apply elem_of_seq in Hi. apply Nat.nlt_ge in Hlt.
      rewrite !sigma_algebra_index_error; try done.
      * rewrite <-HX. fold X c2. exists i. split; [lia|].
        by rewrite <-Hfirst, <-Hk.
      * fold X c1. exists i. split; [lia|done].
Qed.
End row_order.

(** ** Summary of the behaviour of the module *)

Lemma build_lookups_sorted (vals : list (gset nat)) (lk : gmap nat nat)
    (reps : list nat) :
  build_lookups vals = Ok (lk, reps) → Sorted (≤) reps.
Proof.
  unfold build_lookups.
  destruct (for_each add_class (∅, []) vals) as [[lk0 reps0]|e]; cbn; [|done].
  intros [= _ <-]. apply Sorted_merge_sort. apply _.
Qed.

Lemma forall_lt_Forall (P : nat → Prop) (n : nat) :
  Forall P (seq 0 n) → ∀ i, i < n → P i.
Proof.
  rewrite Forall_forall. intros Hall i Hi. apply Hall, elem_of_seq. lia.
Qed.

Section coverage.
Context `{Countable A} `{!IterOrder A} `{!IterOrder (gset A)}.
Implicit Types (F C sC : gset (gset A)) (X S : gset A).

Lemma generated_membership C X :
  generated (membership C) X = generated (column (iter C)) X.
Proof. apply generated_ext. intros x y _ _. apply membership_eq_iff. Qed.

Lemma saturated_intersection `{Countable K} (key : A → K) X S1 S2 :
  saturated key X S1 → saturated key X S2 → saturated key X (S1 ∩ S2).
Proof.
  intros [HS1 Hsat1] [HS2 Hsat2]. split; [set_solver|].
  intros x y [Hx1 Hx2]%elem_of_intersection Hy Hk. apply elem_of_intersection.
  split; [by apply (Hsat1 x y)|by apply (Hsat2 x y)].
Qed.

(** X1: the keys of the dictionary built by [unique_columns] are the
    distinct columns of the matrix, and the value stored for a column is
    the set of all the indices at which that column occurs. *)
Theorem unique_columns_index_sets (M : matrix) :
  dom (unique_columns M) = list_to_set (transpose M)
  ∧ ∀ c s, unique_columns M !! c = Some s →
           ∀ j, j ∈ s ↔ transpose M !! j = Some c.
Proof.
  split; [apply dom_unique_columns|].
  intros c s Hc. by apply columns_dict_lookup.
Qed.

(** X2: without a universal set, [sets2matrix] returns the union of the
    members of the collection as universal set and a matrix with one row
    per member, every row as long as the universal set; every column of
    that matrix holds a 1. *)
Theorem sets2matrix_derived_universe C :
  ∃ (M : matrix) X,
    sets2matrix C None = Ok (M, X)
    ∧ (∀ x, x ∈ X ↔ ∃ S, S ∈ C ∧ x ∈ S)
    ∧ length M = size C
    ∧ Forall (λ row, length row = size X) M
    ∧ ∀ j, j < size X → ∃ row, row ∈ M ∧ row !! j = Some 1.
Proof.
  eexists _, _. split; [apply sets2matrix_eq|]. cbn.
  split; [apply elem_of_union_of|].
  split; [by rewrite length_fmap, length_iter|]. split.
  - apply Forall_fmap, Forall_forall. intros S _. cbn.
    by rewrite length_fmap, length_iter.
  - intros j Hj. rewrite <-length_iter in Hj.
    destruct (lookup_lt_is_Some_2 _ _ Hj) as [x Hx].
    assert (x ∈ union_of C) as (S & HS & HxS)%elem_of_union_of.
    { by eapply elem_of_iter, list_elem_of_lookup_2. }
    eexists. split.
    + apply list_elem_of_fmap. exists S. split; [done|]. by apply elem_of_iter.
    + rewrite list_lookup_fmap, Hx. cbn. by rewrite decide_True.
Qed.

(** X3: the first loop of [sigma_algebra] never fails ([min] is only
    applied to non-empty index sets); [lookups] has an entry exactly for
    the column indices, the entry of an index being the least index of an
    identical column, and [reps] is sorted. *)
Theorem lookups_least_index (M : matrix) :
  ∃ lk reps,
    build_lookups (map_to_list (unique_columns M)).*2 = Ok (lk, reps)
    ∧ Sorted (≤) reps
    ∧ ∀ i r, lk !! i = Some r ↔
        ∃ c, transpose M !! i = Some c ∧ transpose M !! r = Some c
             ∧ ∀ j, j < r → transpose M !! j ≠ Some c.
Proof.
  destruct (build_lookups_unique_columns M) as (lk & reps & Hrun & Hlk).
  exists lk, reps. split; [done|]. split; [by eapply build_lookups_sorted|].
  intros i r. rewrite Hlk. destruct (decide (i < length (transpose M))) as [Hi|Hi].
  - destruct (lookup_lt_is_Some_2 _ _ Hi) as [c Hc].
    destruct (first_index_spec _ _ _ Hc) as (Hf & _ & Hlt). split.
    + intros [= <-]. by exists c.
    + intros (c' & Hc' & Hr & Hleast). f_equal.
      assert (c' = c) as -> by congruence.
      apply (first_index_unique _ i c); [done..|].
      intros j Hj. destruct (decide (r ≤ j)); [done|].
      destruct (Hleast j); [lia|done].
  - split; [done|]. intros (c & Hc%lookup_lt_Some & _). lia.
Qed.

(** X4: with the empty collection and any non-empty universal set,
    [sigma_algebra] raises [KeyError]. *)
Theorem sigma_algebra_empty_collection X :
  X ≠ ∅ → sigma_algebra (∅ : gset (gset A)) (Some X) = Raise KeyError.
Proof. apply sigma_algebra_key_error. Qed.

(** X5: with the empty collection and no universal set, or the empty
    universal set, [sigma_algebra] returns the family whose only member is
    the empty set. *)
Theorem sigma_algebra_nothing :
  sigma_algebra (∅ : gset (gset A)) None = Ok {[ ∅ ]}
  ∧ sigma_algebra (∅ : gset (gset A)) (Some ∅) = Ok {[ ∅ ]}.
Proof.
  split; apply sigma_algebra_no_rows_no_elements; [apply union_of_empty|done].
Qed.

(** X6: with a non-empty collection, [sigma_algebra] raises [IndexError]
    as soon as, for some column, the least index of an identical column is
    not below the number of distinct columns. *)
Theorem sigma_algebra_raises_index_error C (Xo : option (gset A)) :
  C ≠ ∅ →
  (∃ i, i < size (universe C Xo)
        ∧ size (set_map (column (iter C)) (universe C Xo) : gset (list nat))
          ≤ first_index (column (iter C) <$> iter (universe C Xo)) i) →
  sigma_algebra C Xo = Raise IndexError.
Proof. apply sigma_algebra_index_error. Qed.

(** X7: with a non-empty collection, when for every column the least
    index of an identical column is below the number of distinct columns,
    [sigma_algebra] returns the family of all the unions of equivalence
    classes of the relation "belongs to the same members of [C]". *)
Theorem sigma_algebra_unions_of_classes C (Xo : option (gset A)) :
  C ≠ ∅ →
  (∀ i, i < size (universe C Xo) →
        first_index (column (iter C) <$> iter (universe C Xo)) i
        < size (set_map (column (iter C)) (universe C Xo) : gset (list nat))) →
  sigma_algebra C Xo = Ok (generated (membership C) (universe C Xo)).
Proof.
  intros HC Hgood. rewrite generated_membership.
  by apply sigma_algebra_generated.
Qed.

(** X8: whenever [sigma_algebra] returns, the members of the returned
    family are exactly the subsets of the universal set that contain, with
    an element, every element of the universal set that belongs to the same
    members of the collection. *)
Theorem sigma_algebra_result_saturated C (Xo : option (gset A)) sC :
  sigma_algebra C Xo = Ok sC →
  ∀ S, S ∈ sC ↔ saturated (membership C) (universe C Xo) S.
Proof.
  intros ->%sigma_algebra_returns S.
  by rewrite <-generated_membership, elem_of_generated.
Qed.

(** X9: whenever [sigma_algebra] returns, the returned family has
    [2 ^ k] members, where [k] is the number of equivalence classes. *)
Theorem sigma_algebra_result_size C (Xo : option (gset A)) sC :
  sigma_algebra C Xo = Ok sC →
  size sC = 2 ^ num_classes C (universe C Xo).
Proof. apply sigma_algebra_returns_size. Qed.

(** X10: whenever [sigma_algebra] returns, the returned family is closed
    under complement in the universal set, under union and under
    intersection. *)
Theorem sigma_algebra_result_closed C (Xo : option (gset A)) sC :
  sigma_algebra C Xo = Ok sC →
  (∀ S, S ∈ sC → universe C Xo ∖ S ∈ sC)
  ∧ (∀ S1 S2, S1 ∈ sC → S2 ∈ sC → S1 ∪ S2 ∈ sC)
  ∧ (∀ S1 S2, S1 ∈ sC → S2 ∈ sC → S1 ∩ S2 ∈ sC).
Proof.
  intros ->%sigma_algebra_returns.
  destruct (generated_closed (column (iter C)) (universe C Xo)) as [Hc Hu].
  split; [done|]. split; [done|].
  intros S1 S2 ?%elem_of_generated ?%elem_of_generated.
  by apply elem_of_generated, saturated_intersection.
Qed.

(** X11: whenever [sigma_algebra] returns, the returned family contains
    the universal set, the empty set, and every member of the collection
    that is a subset of the universal set. *)
Theorem sigma_algebra_result_members C (Xo : option (gset A)) sC :
  sigma_algebra C Xo = Ok sC →
  universe C Xo ∈ sC ∧ ∅ ∈ sC
  ∧ ∀ S, S ∈ C → S ⊆ universe C Xo → S ∈ sC.
Proof. apply sigma_algebra_returns_members. Qed.

(** X12: whenever [sigma_algebra] returns, both verifiers accept the
    returned family. *)
Theorem sigma_algebra_result_verified C (Xo : option (gset A)) sC :
  sigma_algebra C Xo = Ok sC →
  is_sigma_algebra sC None = Ok true
  ∧ is_sigma_algebra__brute sC None = Ok true.
Proof.
  intros Hrun. split; [by eapply sigma_algebra_returns_verified|].
  apply sigma_algebra_returns in Hrun as ->.
  unfold is_sigma_algebra__brute. f_equal. apply checks_pass_closed.
  cbn. rewrite union_of_generated. apply generated_closed.
Qed.


(** X14: [sigma_algebra] raises nothing but [KeyError] and [IndexError]:
    [KeyError] for the empty collection with a non-empty universal set,
    [IndexError] for a non-empty collection with a column whose least
    identical column index is not below the number of distinct columns. *)
Theorem sigma_algebra_exceptions C (Xo : option (gset A)) (e : exception) :
  sigma_algebra C Xo = Raise e →
  (e = KeyError ∧ C = ∅ ∧ universe C Xo ≠ ∅)
  ∨ (e = IndexError ∧ C ≠ ∅
     ∧ ∃ i, i < size (universe C Xo)
            ∧ size (set_map (column (iter C)) (universe C Xo)
                      : gset (list nat))
              ≤ first_index (column (iter C) <$> iter (universe C Xo)) i).
Proof.
  intros Hrun. destruct (decide (C = ∅)) as [->|HC].
  - left. destruct (decide (universe ∅ Xo = ∅)) as [HX|HX].
    { by rewrite sigma_algebra_no_rows_no_elements in Hrun. }
    split; [|done]. destruct Xo as [X|]; cbn in HX.
    + rewrite sigma_algebra_key_error in Hrun by done. congruence.
    + by rewrite union_of_empty in HX.
  - right.
    destruct (decide (Forall
      (λ i, first_index (column (iter C) <$> iter (universe C Xo)) i
            < size (set_map (column (iter C)) (universe C Xo)
                      : gset (list nat)))
      (seq 0 (size (universe C Xo))))) as [Hgood|Hbad].
    { rewrite sigma_algebra_generated in Hrun; [done..|].
      by apply forall_lt_Forall. }
    apply not_Forall_Exists, Exists_exists in Hbad as (i & Hi & Hlt);
      [|apply _].
    apply elem_of_seq in Hi. apply Nat.nlt_ge in Hlt.
    assert (∃ i, i < size (universe C Xo)
              ∧ size (set_map (column (iter C)) (universe C Xo)
                        : gset (list nat))
                ≤ first_index (column (iter C) <$> iter (universe C Xo)) i)
      as Hex by (exists i; split; [lia|done]).
    rewrite sigma_algebra_index_error in Hrun by done.
    split; [congruence|done].
Qed.

(** X16: when the collection is not empty and separates every two
    elements of the universal set, [sigma_algebra] returns the power set of
    the universal set. *)
Theorem sigma_algebra_power_set C (Xo : option (gset A)) :
  C ≠ ∅ →
  (∀ x y, x ∈ universe C Xo → y ∈ universe C Xo →
          (∀ S, S ∈ C → (x ∈ S ↔ y ∈ S)) → x = y) →
  ∃ sC, sigma_algebra C Xo = Ok sC
        ∧ (∀ S, S ∈ sC ↔ S ⊆ universe C Xo)
        ∧ size sC = 2 ^ size (universe C Xo).
Proof. apply sigma_algebra_separated_aux. Qed.

(** X17: when the collection is not empty and none of its members
    separates two elements of the non-empty universal set,
    [sigma_algebra] returns the family of the empty set and the universal
    set. *)
Theorem sigma_algebra_one_class C (Xo : option (gset A)) :
  C ≠ ∅ → universe C Xo ≠ ∅ →
  (∀ x y S, x ∈ universe C Xo → y ∈ universe C Xo → S ∈ C →
            (x ∈ S ↔ y ∈ S)) →
  sigma_algebra C Xo = Ok {[ ∅; universe C Xo ]}.
Proof. apply sigma_algebra_one_class_aux. Qed.

(** X18: the fast verifier rejects the empty family, whatever the
    universal set. *)
Theorem is_sigma_algebra_empty_family (Xo : option (gset A)) :
  is_sigma_algebra (∅ : gset (gset A)) Xo = Ok false.
Proof. apply is_sigma_algebra_empty. Qed.

(** X19: on a family with at least one member, all of them subsets of the
    universal set (supplied or derived), the cardinality test of the fast
    verifier is exact: it returns [True] exactly when the family is closed
    under complement and union, and so agrees with the brute-force
    verifier. *)
Theorem is_sigma_algebra_exact F (Xo : option (gset A)) :
  F ≠ ∅ → (∀ S, S ∈ F → S ⊆ universe F Xo) →
  (is_sigma_algebra F Xo = Ok true ↔ closed (universe F Xo) F)
  ∧ is_sigma_algebra F Xo = is_sigma_algebra__brute F Xo.
Proof.
  intros HF Hcov. rewrite is_sigma_algebra_nonempty by done.
  pose proof (cardinality_iff_closed F (universe F Xo) HF Hcov) as Hiff.
  pose proof (checks_pass_closed F (universe F Xo)) as Hcp.
  unfold is_sigma_algebra__brute. cbn zeta. split.
  - rewrite <-Hiff. split.
    + intros [= Hb]. by apply bool_decide_eq_true in Hb.
    + intros Hsize. f_equal. by apply bool_decide_eq_true.
  - f_equal. destruct (checks_pass F (universe F Xo) (iter F)).
    + apply bool_decide_eq_true. by apply Hiff, Hcp.
    + apply bool_decide_eq_false. intros Hsize%Hiff%Hcp. done.
Qed.

(** X20: a family with at least one member that the brute-force verifier
    accepts (the universal set derived from the family) contains the
    universal set and the empty set and is closed under intersection. *)
Theorem is_sigma_algebra__brute_accepts F :
  is_sigma_algebra__brute F None = Ok true → F ≠ ∅ →
  union_of F ∈ F ∧ ∅ ∈ F ∧ ∀ S1 S2, S1 ∈ F → S2 ∈ F → S1 ∩ S2 ∈ F.
Proof.
  unfold is_sigma_algebra__brute. cbn. intros [= Hcp] HF.
  apply checks_pass_closed in Hcp as [Hc Hu].
  pose proof (union_of_covers F) as Hcov.
  split; [by apply (closed_universe F (union_of F))|].
  split; [by apply (closed_empty F (union_of F))|].
  intros S1 S2. by apply (closed_intersection F (union_of F)).
Qed.
End coverage.

(** X15: the order in which the members of the collection are iterated
    (the order of the rows of the matrix) has no effect on the outcome of
    [sigma_algebra]. *)
Theorem sigma_algebra_row_order `{Countable A} (O : IterOrder A)
    (R1 R2 : IterOrder (gset A)) (C : gset (gset A)) (Xo : option (gset A)) :
  sigma_algebra (IterOrder0:=O) (IterOrder1:=R1) C Xo
  = sigma_algebra (IterOrder0:=O) (IterOrder1:=R2) C Xo.
Proof. apply sigma_algebra_row_order_aux. Qed.

(** ** Concrete runs

    The runs below use the iteration order of CPython on sets of small
    integers (increasing); the order of the rows plays no role. *)

Section cpython.
#[local] Existing Instance increasing_order.
#[local] Existing Instance elements_order.

Lemma sets2matrix_uncovered_returns :
  let C : gset (gset nat) := {[ {[1; 3]} ]} in
  let X : gset nat := {[1; 2]} in
  (∃ S x, S ∈ C ∧ x ∈ S ∧ x ∉ X)
  ∧ sets2matrix C (Some X) = Ok ([[1; 0]], X)
  ∧ sigma_algebra C (Some X) = Ok {[ ∅; {[1]}; {[2]}; {[1; 2]} ]}
  ∧ is_sigma_algebra C (Some X) = Ok false.
Proof.
  intros C X. split; [|repeat split; vm_compute; reflexivity].
  exists {[1; 3]}, 3. repeat split; compute_done.
Qed.

(** C1: with [C = {{3}}] and [X = {1, 2, 3}] there are two equivalence
    classes, [{1, 2}] and [{3}], so the generated sigma algebra has
    [2 ^ 2] members; the code raises [IndexError] instead of returning
    it.  The class [{3}] is represented by column index 2, and the words
    have length 2. *)
Theorem sigma_algebra_cardinality_raises :
  let C : gset (gset nat) := {[ {[3]} ]} in
  let X : gset nat := {[1; 2; 3]} in
  num_classes C X = 2 ∧ sigma_algebra C (Some X) = Raise IndexError.
Proof. split; vm_compute; reflexivity. Qed.

(** C2: with [C = {{2}, {4}}] and [X = {1, 2, 3, 4}] no family is
    returned, closed or not: the code raises [IndexError]. *)
Theorem sigma_algebra_closure_raises :
  sigma_algebra ({[ {[2]}; {[4]} ]} : gset (gset nat)) (Some {[1; 2; 3; 4]})
  = Raise IndexError.
Proof. vm_compute; reflexivity. Qed.

(** C3: with [C = {{3}, {1, 2, 3}}] and the universal set derived from
    it, no family containing [X], the empty set and the members of [C] is
    returned: the code raises [IndexError]. *)
Theorem sigma_algebra_members_raises :
  sigma_algebra ({[ {[3]}; {[1; 2; 3]} ]} : gset (gset nat)) None
  = Raise IndexError.
Proof. vm_compute; reflexivity. Qed.

(** C5: with the empty collection and [X = {1, 2}] there is one
    equivalence class, but the code raises [KeyError]: the matrix without
    rows has no columns, so [lookups] is empty when it is subscripted. *)
Theorem sigma_algebra_empty_collection_raises :
  num_classes (∅ : gset (gset nat)) {[1; 2]} = 1
  ∧ sigma_algebra (∅ : gset (gset nat)) (Some {[1; 2]}) = Raise KeyError.
Proof. split; vm_compute; reflexivity. Qed.

(** C7: with [C = {{1, 2}, {1, 2, 3}}] the fast verifier cannot be
    applied to the generated algebra: generating it raises [IndexError]. *)
Theorem is_sigma_algebra_of_sigma_algebra_raises :
  (sC ← sigma_algebra ({[ {[1; 2]}; {[1; 2; 3]} ]} : gset (gset nat)) None;
   is_sigma_algebra sC None)
  = Raise IndexError.
Proof. vm_compute; reflexivity. Qed.

(** C8: with [C = {{4}, {1, 2, 3, 4}}] neither [sigma_algebra(C)] nor
    [sigma_algebra(sigma_algebra(C))] returns a family: both raise
    [IndexError]. *)
Theorem sigma_algebra_idempotence_raises :
  let C : gset (gset nat) := {[ {[4]}; {[1; 2; 3; 4]} ]} in
  sigma_algebra C None = Raise IndexError
  ∧ (sC ← sigma_algebra C None; sigma_algebra sC None) = Raise IndexError.
Proof. split; vm_compute; reflexivity. Qed.

Lemma verifiers_disagree_on_empty :
  is_sigma_algebra (∅ : gset (gset nat)) None = Ok false
  ∧ is_sigma_algebra__brute (∅ : gset (gset nat)) None = Ok true.
Proof. split; vm_compute; reflexivity. Qed.

Lemma verifiers_agree_nonempty_witness :
  let F : gset (gset nat) := {[ ∅; {[1]}; {[1; 2]} ]} in
  F ≠ ∅ ∧ is_sigma_algebra F None = is_sigma_algebra__brute F None.
Proof.
  intros F. split.
  - apply (bool_decide_unpack _). vm_compute. exact I.
  - apply verifiers_agree_nonempty.
    apply (bool_decide_unpack _). vm_compute. exact I.
Defined.
End cpython.

(** ** Concrete runs of the general properties *)

Ltac by_computation := apply (bool_decide_unpack _); vm_compute; exact I.

Section cpython_runs.
#[local] Existing Instance increasing_order.
#[local] Existing Instance elements_order.

Lemma sigma_algebra_empty_collection_witness :
  let X : gset nat := {[1; 2]} in
  X ≠ ∅ ∧ sigma_algebra (∅ : gset (gset nat)) (Some X) = Raise KeyError.
Proof.
  intros X. assert (X ≠ ∅) as HX by by_computation.
  split; [done|]. by apply sigma_algebra_empty_collection.
Defined.

Lemma sigma_algebra_raises_index_error_witness :
  let C : gset (gset nat) := {[ {[3]} ]} in
  let Xo : option (gset nat) := Some {[1; 2; 3]} in
  C ≠ ∅
  ∧ (∃ i, i < size (universe C Xo)
          ∧ size (set_map (column (iter C)) (universe C Xo) : gset (list nat))
            ≤ first_index (column (iter C) <$> iter (universe C Xo)) i)
  ∧ sigma_algebra C Xo = Raise IndexError.
Proof.
  intros C Xo. assert (C ≠ ∅) as HC by by_computation.
  assert (∃ i, i < size (universe C Xo)
            ∧ size (set_map (column (iter C)) (universe C Xo)
                      : gset (list nat))
              ≤ first_index (column (iter C) <$> iter (universe C Xo)) i)
    as Hbad by (exists 2; split; by_computation).
  split; [done|]. split; [done|].
  by apply sigma_algebra_raises_index_error.
Defined.

Lemma sigma_algebra_unions_of_classes_witness :
  let C : gset (gset nat) := {[ {[1]} ]} in
  let Xo : option (gset nat) := Some {[1; 2; 3]} in
  C ≠ ∅
  ∧ (∀ i, i < size (universe C Xo) →
          first_index (column (iter C) <$> iter (universe C Xo)) i
          < size (set_map (column (iter C)) (universe C Xo)
                    : gset (list nat)))
  ∧ sigma_algebra C Xo = Ok (generated (membership C) (universe C Xo)).
Proof.
  intros C Xo. assert (C ≠ ∅) as HC by by_computation.
  assert (∀ i, i < size (universe C Xo) →
            first_index (column (iter C) <$> iter (universe C Xo)) i
            < size (set_map (column (iter C)) (universe C Xo)
                      : gset (list nat))) as Hgood.
  { apply forall_lt_Forall. by_computation. }
  split; [done|]. split; [done|].
  by apply sigma_algebra_unions_of_classes.
Defined.

Lemma sigma_algebra_result_saturated_witness :
  let C : gset (gset nat) := {[ {[1]} ]} in
  let Xo : option (gset nat) := Some {[1; 2; 3]} in
  let sC : gset (gset nat) := {[ ∅; {[1]}; {[2; 3]}; {[1; 2; 3]} ]} in
  sigma_algebra C Xo = Ok sC
  ∧ ∀ S, S ∈ sC ↔ saturated (membership C) (universe C Xo) S.
Proof.
  intros C Xo sC.
  assert (sigma_algebra C Xo = Ok sC) as Hrun by by_computation.
  split; [done|]. by apply sigma_algebra_result_saturated.
Defined.

Lemma sigma_algebra_result_size_witness :
  let C : gset (gset nat) := {[ {[1]} ]} in
  let Xo : option (gset nat) := Some {[1; 2; 3]} in
  let sC : gset (gset nat) := {[ ∅; {[1]}; {[2; 3]}; {[1; 2; 3]} ]} in
  sigma_algebra C Xo = Ok sC
  ∧ size sC = 2 ^ num_classes C (universe C Xo).
Proof.
  intros C Xo sC.
  assert (sigma_algebra C Xo = Ok sC) as Hrun by by_computation.
  split; [done|]. by apply sigma_algebra_result_size.
Defined.

Lemma sigma_algebra_result_closed_witness :
  let C : gset (gset nat) := {[ {[1]} ]} in
  let Xo : option (gset nat) := Some {[1; 2; 3]} in
  let sC : gset (gset nat) := {[ ∅; {[1]}; {[2; 3]}; {[1; 2; 3]} ]} in
  sigma_algebra C Xo = Ok sC
  ∧ (∀ S, S ∈ sC → universe C Xo ∖ S ∈ sC)
  ∧ (∀ S1 S2, S1 ∈ sC → S2 ∈ sC → S1 ∪ S2 ∈ sC)
  ∧ (∀ S1 S2, S1 ∈ sC → S2 ∈ sC → S1 ∩ S2 ∈ sC).
Proof.
  intros C Xo sC.
  assert (sigma_algebra C Xo = Ok sC) as Hrun by by_computation.
  split; [done|]. by apply sigma_algebra_result_closed.
Defined.

Lemma sigma_algebra_result_members_witness :
  let C : gset (gset nat) := {[ {[1]}; {[1; 2]} ]} in
  let sC : gset (gset nat) := {[ ∅; {[1]}; {[2]}; {[1; 2]} ]} in
  sigma_algebra C None = Ok sC
  ∧ universe C None ∈ sC ∧ ∅ ∈ sC
  ∧ ∀ S, S ∈ C → S ⊆ universe C None → S ∈ sC.
Proof.
  intros C sC.
  assert (sigma_algebra C None = Ok sC) as Hrun by by_computation.
  split; [done|]. by apply sigma_algebra_result_members.
Defined.

Lemma sigma_algebra_result_verified_witness :
  let C : gset (gset nat) := {[ {[1]}; {[1; 2]} ]} in
  let sC : gset (gset nat) := {[ ∅; {[1]}; {[2]}; {[1; 2]} ]} in
  sigma_algebra C None = Ok sC
  ∧ is_sigma_algebra sC None = Ok true
  ∧ is_sigma_algebra__brute sC None = Ok true.
Proof.
  intros C sC.
  assert (sigma_algebra C None = Ok sC) as Hrun by by_computation.
  split; [done|]. by apply (sigma_algebra_result_verified C None).
Defined.


Lemma sigma_algebra_exceptions_witness :
  let C : gset (gset nat) := {[ {[3]} ]} in
  let Xo : option (gset nat) := Some {[1; 2; 3]} in
  sigma_algebra C Xo = Raise IndexError
  ∧ ((IndexError = KeyError ∧ C = ∅ ∧ universe C Xo ≠ ∅)
     ∨ (IndexError = IndexError ∧ C ≠ ∅
        ∧ ∃ i, i < size (universe C Xo)
               ∧ size (set_map (column (iter C)) (universe C Xo)
                         : gset (list nat))
                 ≤ first_index (column (iter C) <$> iter (universe C Xo)) i)).
Proof.
  intros C Xo.
  assert (sigma_algebra C Xo = Raise IndexError) as Hrun by by_computation.
  split; [done|]. by apply sigma_algebra_exceptions.
Defined.

Lemma sigma_algebra_power_set_witness :
  let C : gset (gset nat) := {[ {[1]} ]} in
  let Xo : option (gset nat) := Some {[1; 2]} in
  C ≠ ∅
  ∧ (∀ x y, x ∈ universe C Xo → y ∈ universe C Xo →
            (∀ S, S ∈ C → (x ∈ S ↔ y ∈ S)) → x = y)
  ∧ ∃ sC, sigma_algebra C Xo = Ok sC
          ∧ (∀ S, S ∈ sC ↔ S ⊆ universe C Xo)
          ∧ size sC = 2 ^ size (universe C Xo).
Proof.
  intros C Xo. assert (C ≠ ∅) as HC by by_computation.
  assert (∀ x y, x ∈ universe C Xo → y ∈ universe C Xo →
            (∀ S, S ∈ C → (x ∈ S ↔ y ∈ S)) → x = y) as Hsep.
  { intros x y Hx Hy Hall.
    assert (x ∈ ({[1]} : gset nat) ↔ y ∈ ({[1]} : gset nat)) as H1.
    { apply Hall. by apply elem_of_singleton. }
    cbn in Hx, Hy. rewrite !elem_of_singleton in H1.
    apply elem_of_union in Hx as [Hx|Hx], Hy as [Hy|Hy];
      apply elem_of_singleton in Hx, Hy; subst; try done.
    - destruct H1 as [H1 _]. by specialize (H1 eq_refl).
    - destruct H1 as [_ H1]. by specialize (H1 eq_refl). }
  split; [done|]. split; [done|]. by apply sigma_algebra_power_set.
Defined.

Lemma sigma_algebra_one_class_witness :
  let C : gset (gset nat) := {[ {[1; 2]} ]} in
  let Xo : option (gset nat) := Some {[1; 2]} in
  C ≠ ∅ ∧ universe C Xo ≠ ∅
  ∧ (∀ x y S, x ∈ universe C Xo → y ∈ universe C Xo → S ∈ C →
              (x ∈ S ↔ y ∈ S))
  ∧ sigma_algebra C Xo = Ok {[ ∅; universe C Xo ]}.
Proof.
  intros C Xo. assert (C ≠ ∅) as HC by by_computation.
  assert (universe C Xo ≠ ∅) as HX by by_computation.
  assert (∀ x y S, x ∈ universe C Xo → y ∈ universe C Xo → S ∈ C →
            (x ∈ S ↔ y ∈ S)) as Hsame.
  { intros x y S Hx Hy ->%elem_of_singleton. cbn in Hx, Hy. tauto. }
  split; [done|]. split; [done|]. split; [done|].
  by apply sigma_algebra_one_class.
Defined.

Lemma is_sigma_algebra_exact_witness :
  let F : gset (gset nat) := {[ ∅; {[1; 2]} ]} in
  let Xo : option (gset nat) := Some {[1; 2]} in
  F ≠ ∅ ∧ (∀ S, S ∈ F → S ⊆ universe F Xo)
  ∧ (is_sigma_algebra F Xo = Ok true ↔ closed (universe F Xo) F)
  ∧ is_sigma_algebra F Xo = is_sigma_algebra__brute F Xo.
Proof.
  intros F Xo. assert (F ≠ ∅) as HF by by_computation.
  assert (∀ S, S ∈ F → S ⊆ universe F Xo) as Hcov.
  { change (set_Forall (λ S, S ⊆ universe F Xo) F). by_computation. }
  split; [done|]. split; [done|]. by apply is_sigma_algebra_exact.
Defined.

Lemma is_sigma_algebra__brute_accepts_witness :
  let F : gset (gset nat) := {[ ∅; {[1; 2]} ]} in
  is_sigma_algebra__brute F None = Ok true ∧ F ≠ ∅
  ∧ union_of F ∈ F ∧ ∅ ∈ F ∧ ∀ S1 S2, S1 ∈ F → S2 ∈ F → S1 ∩ S2 ∈ F.
Proof.
  intros F.
  assert (is_sigma_algebra__brute F None = Ok true) as Hrun by by_computation.
  assert (F ≠ ∅) as HF by by_computation.
  split; [done|]. split; [done|]. by apply is_sigma_algebra__brute_accepts.
Defined.
End cpython_runs.
